(** * The mention extension: trigger scanner, suggestion sessions, commit

    A shallow embedding of [src/lib/mention.ts].

    - JavaScript strings are sequences of UTF-16 code units ([list Z]); the
      regular expressions of the source carry no [u] flag, so they work on
      code units as well.
    - Document offsets and string indices are integers ([Z]); [slice] keeps
      the behaviour of [String.prototype.slice] on negative and
      out-of-range arguments.
    - The range objects [{from, to}] live in a store, because the commit
      command updates one in place through an alias of the plugin state.
    - [Math.random] and the host editor (selection, composition flag,
      [allow] hook, document splice) are explicit inputs. *)

From Stdlib Require Import ZArith Lia String Ascii.
From stdpp Require Import base list strings pretty gmap.

Local Open Scope Z_scope.

(** ** JavaScript strings *)

Module JS.

Abbreviation jsstring := (list Z) (only parsing).

(** An ASCII literal as a sequence of code units. *)
Definition of_string (s : string) : jsstring :=
  (λ a, Z.of_N (N_of_ascii a)) <$> list_ascii_of_string s.

(** Relative index resolution shared by both arguments of
    [String.prototype.slice]. *)
Definition clamp_index (len i : Z) : Z :=
  if i <? 0 then Z.max (len + i) 0 else Z.min i len.

(** [s.slice(start, end)]; [end_ = None] is the omitted argument. *)
Definition slice (s : jsstring) (start : Z) (end_ : option Z) : jsstring :=
  let len := Z.of_nat (length s) in
  let k_from := clamp_index len start in
  let k_to := match end_ with
              | None => len
              | Some e => clamp_index len e
              end in
  if k_from >=? k_to then []
  else take (Z.to_nat (k_to - k_from)) (drop (Z.to_nat k_from) s).

(** [s.split(sep)] for a one-unit separator: never empty. *)
Fixpoint split (sep : Z) (s : jsstring) : list jsstring :=
  match s with
  | [] => [[]]
  | c :: rest =>
      if c =? sep then [] :: split sep rest
      else match split sep rest with
           | piece :: pieces => (c :: piece) :: pieces
           | [] => [[c]]
           end
  end.

(** [ToString] of a value that is a string or [undefined]. *)
Definition to_string (v : option jsstring) : jsstring :=
  match v with
  | Some s => s
  | None => of_string "undefined"
  end.

(** A string is truthy when it is not empty; [null] is falsy. *)
Definition truthy (v : option jsstring) : bool :=
  match v with
  | Some (_ :: _) => true
  | _ => false
  end.

(** [s.startsWith(' ')]. *)
Definition startsWith_space (s : jsstring) : bool :=
  match s with
  | c :: _ => c =? 32
  | [] => false
  end.

End JS.

Import JS.

(** ** The regular expressions of the scanner *)

Module Regex.

Definition in_range (lo hi c : Z) : bool := (lo <=? c) && (c <=? hi).

(** ECMAScript LineTerminator: LF, CR, LS, PS. *)
Definition is_line_terminator (c : Z) : bool :=
  (c =? 10) || (c =? 13) || (c =? 0x2028) || (c =? 0x2029).

(** The class [\s]: WhiteSpace and LineTerminator. *)
Definition is_white_space (c : Z) : bool :=
  (c =? 9) || (c =? 11) || (c =? 12) || (c =? 32) || (c =? 0xA0)
  || (c =? 0x1680) || in_range 0x2000 0x200A c || (c =? 0x202F)
  || (c =? 0x205F) || (c =? 0x3000) || (c =? 0xFEFF)
  || is_line_terminator c.

(** The trigger character [char = '@']. *)
Definition char : Z := 64.

(** The class of [allowedChars]: A-Z, a-z, the Latin-1 letters U+00C0 to
    U+00D6, U+00D8 to U+00F6 and U+00F8 to U+00FF, 0-9, apostrophe,
    double quote, comma, both parentheses, hyphen and [\s]. *)
Definition allowed_class (c : Z) : bool :=
  in_range 65 90 c || in_range 97 122 c
  || in_range 0xC0 0xD6 c || in_range 0xD8 0xF6 c || in_range 0xF8 0xFF c
  || in_range 48 57 c
  || (c =? 39) || (c =? 34) || (c =? 44) || (c =? 40) || (c =? 41)
  || (c =? 45) || is_white_space c.

(** [allowedChars.test(s)] with [/^[...]*$/]: every unit is in the class. *)
Definition allowedChars_test (s : jsstring) : bool := forallb allowed_class s.

(** [disallowedStartsWithChars.test(s)] with [/^[,\s]/]. *)
Definition disallowedStartsWithChars_test (s : jsstring) : bool :=
  match s with
  | c :: _ => (c =? 44) || is_white_space c
  | [] => false
  end.

(** [/^[\s\0]?$/.test(s)]: empty, or one unit that is white space or NUL. *)
Definition prefix_test (s : jsstring) : bool :=
  match s with
  | [] => true
  | [c] => is_white_space c || (c =? 0)
  | _ => false
  end.

(** [suffix.test(s)] with [/\s@$/]: some position holds a white space
    unit, then the trigger, then the end of the string. *)
Fixpoint suffix_test (s : jsstring) : bool :=
  match s with
  | w :: ((a :: r) as tl) =>
      (is_white_space w && (a =? char) && match r with [] => true | _ => false end)
      || suffix_test tl
  | _ => false
  end.

(** The lookahead [(?=\s@|$)] under the [m] flag, tried on the rest of the
    input: white space followed by the trigger, or the end of a line. *)
Definition lookahead (s : jsstring) : bool :=
  match s with
  | [] => true
  | c :: rest =>
      (is_white_space c && match rest with a :: _ => a =? char | [] => false end)
      || is_line_terminator c
  end.

(** The lazy [.*?] followed by the lookahead: the number of units it
    consumes, trying the shortest first; [.] refuses line terminators. *)
Fixpoint lazy_dots (s : jsstring) : option nat :=
  if lookahead s then Some 0%nat
  else match s with
       | [] => None
       | c :: rest =>
           if is_line_terminator c then None else S <$> lazy_dots rest
       end.

(** The whole pattern [@.*?(?=\s@|$)] anchored at the head of [s]: the
    length of the match. *)
Definition match_here (s : jsstring) : option nat :=
  match s with
  | c :: rest => if c =? char then S <$> lazy_dots rest else None
  | [] => None
  end.

(** A match object: [match.index], [match[0]], [match.input]. *)
Record RegExpMatch := {
  index : nat;
  matched : jsstring;
  input : jsstring
}.

(** [input.matchAll(regexp)] under the [g] flag. [s] is the part of the
    input from offset [idx] on; [skip] counts the units before
    [lastIndex], those the previous match has consumed. *)
Fixpoint match_all_from (inp : jsstring) (idx skip : nat) (s : jsstring)
  : list RegExpMatch :=
  match s with
  | [] => []
  | _ :: rest =>
      match skip with
      | S k => match_all_from inp (S idx) k rest
      | O =>
          match match_here s with
          | Some len =>
              {| index := idx; matched := take len s; input := inp |}
                :: match_all_from inp (S idx) (len - 1) rest
          | None => match_all_from inp (S idx) 0 rest
          end
      end
  end.

Definition matchAll (s : jsstring) : list RegExpMatch :=
  match_all_from s 0 0 s.

End Regex.

Import Regex.

(** ** The scanner [findSuggestionMatch] *)

Record Range := { from : Z; to : Z }.

Module Match.
(** [SuggestionMatch]. *)
Record t := {
  range : Range;
  query : jsstring;
  text : jsstring
}.
End Match.

(** What the scanner reads of a resolved position: [$position.depth],
    [$position.pos], [$position.before()], [$position.start()] and the
    document's [textBetween(a, b, '\0', '\0')]. *)
Record ResolvedPos := {
  depth : Z;
  pos : Z;
  before : Z;
  start : Z;
  textBetween : Z → Z → jsstring
}.

(** The text slice the scanner works on: from the start of the block (of the
    document at top level) to the cursor. *)
Definition slice_text (p : ResolvedPos) : jsstring :=
  let isTopLevelNode := depth p <=? 0 in
  let textFrom := if isTopLevelNode then 0 else before p in
  let textTo := pos p in
  textBetween p textFrom textTo.

Definition findSuggestionMatch (p : ResolvedPos) : option Match.t :=
  let text := slice_text p in
  let match_ := last (matchAll text) in
  let textAfter := split char text !! 1%nat in
  let allowed :=
    allowedChars_test (to_string textAfter)
    && negb (disallowedStartsWithChars_test (to_string textAfter)) in
  match match_ with
  | None => None
  | Some m =>
      if negb allowed then None
      else
        let matchPrefix :=
          slice (input m) (Z.max 0 (Z.of_nat (index m) - 1))
                (Some (Z.of_nat (index m))) in
        if negb (prefix_test matchPrefix) then None
        else
          let from := Z.of_nat (index m) + start p in
          let to := from + Z.of_nat (length (matched m)) in
          let widen := suffix_test (slice text (to - 1) (Some (to + 1))) in
          let match0 := if widen then matched m ++ [32] else matched m in
          let to := if widen then to + 1 else to in
          if (from <? pos p) && (to >=? pos p) then
            Some {| Match.range := {| from := from; to := to |};
                    Match.query := slice match0 (Z.of_nat (length [char])) None;
                    Match.text := match0 |}
          else None
  end.

(** A cursor [k] units into a text block: the block holds [content] and its
    content starts at document offset [block_start]. *)
Definition cursor_in_block (content : jsstring) (block_start : Z) (k : nat)
  : ResolvedPos :=
  {| depth := 1;
     pos := block_start + Z.of_nat k;
     before := block_start - 1;
     start := block_start;
     textBetween := λ a b,
       take (Z.to_nat (b - block_start) - Z.to_nat (a - block_start))
            (drop (Z.to_nat (a - block_start)) content) |}.

(** ** The store of range objects

    The session state holds a reference to the range object the scanner
    built; the lifecycle props and the commit command hold the same
    reference. *)

Abbreviation loc := nat (only parsing).

(** A range object is the empty object [{}] or [{from, to}]. *)
Abbreviation RangeObj := (option Range) (only parsing).

Abbreviation Store := (list (option Range)) (only parsing).

Definition alloc (o : RangeObj) (h : Store) : loc * Store :=
  (length h, h ++ [o]).

Definition deref (h : Store) (l : loc) : RangeObj :=
  default None (h !! l).

(** [r.from] and [r.to]; [None] is [undefined]. *)
Definition range_from (h : Store) (l : loc) : option Z := from <$> deref h l.
Definition range_to (h : Store) (l : loc) : option Z := to <$> deref h l.

(** [r.to += 1] on the object at [l]. On [{}] the sum is not a number:
    that case is left out ([None]). *)
Definition increment_to (h : Store) (l : loc) : option Store :=
  match deref h l with
  | Some r => Some (<[l := Some {| from := from r; to := to r + 1 |}]> h)
  | None => None
  end.

(** ** The plugin state *)

Module State.
Record t := {
  active : bool;
  range : loc;
  query : option jsstring;
  text : option jsstring;
  decorationId : option jsstring
}.
End State.

(** [transaction.selection]: [empty] and [$from]. *)
Record Selection := {
  empty : bool;
  resolved_from : ResolvedPos
}.

Record Transaction := { selection : Selection }.

(** What [apply] reads besides its arguments: [editor.view.composing],
    [options.allow] (absent, or a predicate on the candidate range) and the
    value of [Math.floor(Math.random() * 0xffffffff)] for this call. *)
Record Env := {
  composing : bool;
  allow : option (Range → bool);
  random : N
}.

(** The literal [{active: false, range: {}, query: null, text: null,
    decorationId: null}], with its new range object. *)
Definition inactive (h : Store) : State.t * Store :=
  let '(l, h') := alloc None h in
  ({| State.active := false; State.range := l; State.query := None;
      State.text := None; State.decorationId := None |}, h').

Definition init (h : Store) : State.t * Store := inactive h.

(** The template literal [`id_${n}`]. *)
Definition fresh_id (n : N) : jsstring :=
  of_string "id_" ++ of_string (pretty n).

(** [apply], with the scanner as a parameter. *)
Definition apply_with (scan : ResolvedPos → option Match.t)
    (env : Env) (transaction : Transaction) (prev : State.t) (h : Store)
  : State.t * Store :=
  let sel := selection transaction in
  if empty sel || composing env then
    match scan (resolved_from sel) with
    | Some m =>
        if match allow env with
           | Some f => f (Match.range m)
           | None => false
           end
        then
          let '(l, h') := alloc (Some (Match.range m)) h in
          ({| State.active := true;
              State.range := l;
              State.query := Some (Match.query m);
              State.text := Some (Match.text m);
              State.decorationId :=
                if truthy (State.decorationId prev)
                then State.decorationId prev
                else Some (fresh_id (random env)) |}, h')
        else inactive h
    | None => inactive h
    end
  else inactive h.

Definition apply := apply_with findSuggestionMatch.

(** One transaction with its environment, and the states a sequence of
    them goes through. *)
Record Step := { env : Env; transaction : Transaction }.

Fixpoint run (steps : list Step) (prev : State.t) (h : Store)
  : list State.t * Store :=
  match steps with
  | [] => ([], h)
  | st :: rest =>
      let '(next, h1) := apply (env st) (transaction st) prev h in
      let '(states, h2) := run rest next h1 in
      (next :: states, h2)
  end.

(** ** The view: lifecycle hooks *)

Inductive Hook := onStart | onUpdate | onExit.

(** Which hooks the bundle returned by [options.render()] defines. *)
Record Renderer := {
  has_onStart : bool;
  has_onUpdate : bool;
  has_onExit : bool
}.

Module Props.
(** [MentionProps]: [range] is the state's range object itself, and
    [state] is the state the [command] closure has captured. *)
Record t := {
  range : loc;
  query : option jsstring;
  text : option jsstring;
  state : State.t
}.
End Props.

Abbreviation HookCall := (Hook * Props.t)%type (only parsing).

Definition defines (r : Renderer) (hk : Hook) : bool :=
  match hk with
  | onStart => has_onStart r
  | onUpdate => has_onUpdate r
  | onExit => has_onExit r
  end.

(** [renderer?.hook?.(props)]. *)
Definition invoke (renderer : option Renderer) (hk : Hook) (props : Props.t)
  : list HookCall :=
  match renderer with
  | Some r => if defines r hk then [(hk, props)] else []
  | None => []
  end.

Definition moved (h : Store) (prev next : State.t) : bool :=
  State.active prev && State.active next
  && negb (bool_decide (range_from h (State.range prev)
                        = range_from h (State.range next))).

Definition props_of (state : State.t) : Props.t :=
  {| Props.range := State.range state;
     Props.query := State.query state;
     Props.text := State.text state;
     Props.state := state |}.

(** [update(view, prevState)]: the hook calls it makes, in order. *)
Definition update (renderer : option Renderer) (h : Store)
    (prev next : State.t) : list HookCall :=
  let moved := moved h prev next in
  let started := negb (State.active prev) && State.active next in
  let stopped := State.active prev && negb (State.active next) in
  let changed :=
    negb started && negb stopped
    && negb (bool_decide (State.query prev = State.query next)) in
  let handleStart := started || moved in
  let handleChange := changed && negb moved in
  let handleExit := stopped || moved in
  if negb handleStart && negb handleChange && negb handleExit then []
  else
    let state := if handleExit && negb handleStart then prev else next in
    let props := props_of state in
    (if handleExit then invoke renderer onExit props else [])
    ++ (if handleChange then invoke renderer onUpdate props else [])
    ++ (if handleStart then invoke renderer onStart props else []).

(** ** The commit command *)

(** The result attributes ([Record<string, string>]), as the caller lists
    them. *)
Abbreviation Attrs := (list (list Z * list Z)) (only parsing).

(** A document node as the command looks at it: only a text node has a
    [text]. *)
Inductive PMNode :=
| TextNode (t : jsstring)
| OtherNode.

(** The node literals handed to the host. *)
Inductive NodeSpec :=
| MentionSpec (attrs : Attrs)
| TextSpec (t : jsstring).

(** The chained requests to the host editor. *)
Inductive HostRequest :=
| Focus
| InsertContentAt (r : Range) (content : list NodeSpec).

(** [props.command(mentionProps)] for the captured [state].
    [nodeAfter] is [editor.view.state.selection.$to.nodeAfter] at the time
    of the call. The result holds the requests in chain order and the store
    after the call. *)
Definition command (state : State.t) (nodeAfter : option PMNode)
    (mentionProps : Attrs) (h : Store) : option (list HostRequest * Store) :=
  let shouldOverrideSpace :=
    match nodeAfter with
    | Some (TextNode t) => startsWith_space t
    | _ => false
    end in
  h' ← (if shouldOverrideSpace then increment_to h (State.range state)
         else Some h);
  r ← deref h' (State.range state);
  Some ([Focus;
         InsertContentAt r [MentionSpec mentionProps; TextSpec [32]]], h').

(** ** The host document *)

(** Modelled from the spec: the host's document and splice, which the
    repository takes from the editing framework. The document is the flat
    sequence of what its offsets address, one item per offset: a code unit
    of text, a committed mention, or another inline leaf. *)
Inductive Item :=
| Ch (c : Z)
| MentionNode (attrs : Attrs)
| LeafNode.

Abbreviation Doc := (list Item) (only parsing).

(** The text that starts a run of items. *)
Fixpoint text_run (d : Doc) : jsstring :=
  match d with
  | Ch c :: rest => c :: text_run rest
  | _ => []
  end.

(** Modelled from the spec: [$pos.nodeAfter], the node directly after an
    offset; inside a text node, the part of it after the offset. *)
Definition nodeAfter (d : Doc) (p : Z) : option PMNode :=
  match drop (Z.to_nat p) d with
  | [] => None
  | Ch c :: rest => Some (TextNode (c :: text_run rest))
  | _ :: _ => Some OtherNode
  end.

Definition items_of (n : NodeSpec) : list Item :=
  match n with
  | MentionSpec attrs => [MentionNode attrs]
  | TextSpec t => Ch <$> t
  end.

(** Modelled from the spec: the host replaces the span [[from, to)] by the
    given nodes, in order. *)
Definition insertContentAt (r : Range) (content : list NodeSpec) (d : Doc)
  : Doc :=
  take (Z.to_nat (from r)) d ++ (content ≫= items_of)
  ++ drop (Z.to_nat (to r)) d.

Definition perform (d : Doc) (req : HostRequest) : Doc :=
  match req with
  | Focus => d
  | InsertContentAt r content => insertContentAt r content d
  end.

(** What the command reads of [editor.view.state]: the document and the
    offset of [selection.$to]. *)
Record Editor := { doc : Doc; selection_to : Z }.

(** A commit: the command runs against the editor, the host performs its
    requests. *)
Definition commit (state : State.t) (mentionProps : Attrs) (ed : Editor)
    (h : Store) : option (Doc * Store) :=
  '(requests, h') ← command state (nodeAfter (doc ed) (selection_to ed))
                             mentionProps h;
  Some (foldl perform (doc ed) requests, h').

(** One leading space removed, if there is one. *)
Definition drop_one_space (d : Doc) : Doc :=
  match d with
  | Ch c :: rest => if c =? 32 then rest else d
  | _ => d
  end.

(** The plugin and the view together: each transaction is applied, then the
    view's [update] sees the previous and the new state. *)
Fixpoint run_view (renderer : option Renderer) (steps : list Step)
    (prev : State.t) (h : Store) : list HookCall :=
  match steps with
  | [] => []
  | st :: rest =>
      let '(next, h1) := apply (env st) (transaction st) prev h in
      update renderer h1 prev next ++ run_view renderer rest next h1
  end.

(** ** Predicates used in the statements *)

(** A bundle that defines the three lifecycle hooks. *)
Definition all_hooks : Renderer :=
  {| has_onStart := true; has_onUpdate := true; has_onExit := true |}.

(** The state invariant: an active state carries an identifier (a non-empty
    string), an inactive one carries [null]. *)
Definition well_formed (s : State.t) : Prop :=
  if State.active s then truthy (State.decorationId s) = true
  else State.decorationId s = None.

(** The states the plugin goes through from its initial state. *)
Definition states_of (steps : list Step) : list State.t :=
  let '(s0, h0) := init [] in (run steps s0 h0).1.

(** The item at an index is a white space unit of text. *)
Definition white_at (d : Doc) (i : nat) : bool :=
  match d !! i with
  | Some (Ch c) => is_white_space c
  | _ => false
  end.

(** [shouldOverrideSpace]: the node is a text node that starts with U+0020. *)
Definition starts_with_space (n : option PMNode) : bool :=
  match n with
  | Some (TextNode t) => startsWith_space t
  | _ => false
  end.

(** *** Statements of the specification that the code does not meet *)

(** A [moved] update calls [onExit] with the old state's data, then
    [onStart] with the new state's. *)
Definition moved_exits_with_old_data (h : Store) (prev next : State.t)
  : Prop :=
  moved h prev next = true →
  ∃ pe ps,
    update (Some all_hooks) h prev next = [(onExit, pe); (onStart, ps)]
    ∧ Props.range pe = State.range prev
    ∧ Props.query pe = State.query prev
    ∧ Props.text pe = State.text prev
    ∧ Props.range ps = State.range next
    ∧ Props.query ps = State.query next
    ∧ Props.text ps = State.text next.

(** A commit extends the span over any white space unit that follows the
    session's end, replaces it by the mention and one space, and leaves
    exactly one white space unit after the mention. *)
Definition commit_leaves_one_white_space (state : State.t) (attrs : Attrs)
    (ed : Editor) (h : Store) : Prop :=
  ∀ r, deref h (State.range state) = Some r →
    let adjustedTo :=
      if white_at (doc ed) (Z.to_nat (to r)) then to r + 1 else to r in
    ∃ d' h',
      commit state attrs ed h = Some (d', h')
      ∧ d' = insertContentAt {| from := from r; to := adjustedTo |}
               [MentionSpec attrs; TextSpec [32]] (doc ed)
      ∧ white_at d' (S (Z.to_nat (from r))) = true
      ∧ white_at d' (S (S (Z.to_nat (from r)))) = false.

(** Two active states of a run with an inactive state between them carry
    different identifiers. *)
Definition separate_sessions_differ (steps : list Step) : Prop :=
  ∀ (i j k : nat) si sj sk,
    (i < j)%nat → (j < k)%nat →
    states_of steps !! i = Some si →
    states_of steps !! j = Some sj →
    states_of steps !! k = Some sk →
    State.active si = true → State.active sj = false →
    State.active sk = true →
    State.decorationId si ≠ State.decorationId sk.

(** A state that [apply] returns is active only under a collapsed
    selection. *)
Definition active_only_when_collapsed (env : Env) (tr : Transaction)
    (prev : State.t) (h : Store) : Prop :=
  State.active (apply env tr prev h).1 = true →
  empty (selection tr) = true.

(** The command leaves the range object of its state as it was. *)
Definition command_keeps_range (state : State.t) (n : option PMNode)
    (attrs : Attrs) (h : Store) : Prop :=
  ∀ requests h',
    command state n attrs h = Some (requests, h') →
    deref h' (State.range state) = deref h (State.range state).

(** *** Inputs of the examples *)

Definition permissive (composing : bool) (n : N) : Env :=
  {| composing := composing; allow := Some (λ _, true); random := n |}.

(** The selection starts [k] units into a paragraph at offset 1 that holds
    the ASCII text [s]. *)
Definition cursor_step (e : Env) (s : string) (k : nat) (collapsed : bool)
  : Step :=
  {| env := e;
     transaction :=
       {| selection :=
            {| empty := collapsed;
               resolved_from := cursor_in_block (of_string s) 1 k |} |} |}.

Definition text_doc (s : string) : Doc := Ch <$> of_string s.

(** An active state on the trigger text [@q], with its range object at [l]. *)
Definition session_at (l : loc) (q : string) : State.t :=
  {| State.active := true;
     State.range := l;
     State.query := Some (of_string q);
     State.text := Some (char :: of_string q);
     State.decorationId := Some (fresh_id 7) |}.

(** Two trigger spans, at offsets 1 and 4. *)
Definition two_spans : Store :=
  [Some {| from := 1; to := 3 |}; Some {| from := 4; to := 6 |}].

(** The state and the store after [@bo] has been typed at the start of the
    first paragraph. *)
Definition typed_bo : State.t * Store :=
  let '(s0, h0) := init [] in
  apply (permissive false 7)
        (transaction (cursor_step (permissive false 7) "@bo" 3 true)) s0 h0.

(** The flat document [@bo], a tab, [x], its trigger span, and the cursor
    after [@bo]. *)
Definition tab_editor : Editor :=
  {| doc := Ch <$> (of_string "@bo" ++ [9; 120]); selection_to := 3 |}.

Definition tab_span : Store := [Some {| from := 0; to := 3 |}].

(** The flat document [@bo], two spaces, [x], with the cursor after [@bo]. *)
Definition two_space_editor : Editor :=
  {| doc := text_doc "@bo  x"; selection_to := 3 |}.

(** The flat document [@bo], a space, [x], with the cursor moved to its
    end, away from the span. *)
Definition moved_cursor_editor : Editor :=
  {| doc := text_doc "@bo x"; selection_to := 5 |}.

(** ** The attributes of the mention node *)

Module Attribute.
(** [Attribute], as [getStandardAttribute] builds it. An element is the map
    its [getAttribute] reads; an attribute set ([Record<string, any>]) maps
    a key to a string or to [null], and has no entry for [undefined]. *)
Record t := {
  default : option (list Z);
  parseHTML : gmap (list Z) (list Z) → option (list Z);
  renderHTML : gmap (list Z) (option (list Z)) → gmap (list Z) (option (list Z));
  keepOnSplit : bool
}.
End Attribute.

(** [attributes[key]]: a string, or [None] for [null] and for [undefined]. *)
Definition attr_value (attributes : gmap (list Z) (option (list Z)))
    (key : jsstring) : option jsstring :=
  match attributes !! key with
  | Some v => v
  | None => None
  end.

(** The template literal [`data-${key}`]. *)
Definition data_name (key : jsstring) : jsstring := of_string "data-" ++ key.

Definition getStandardAttribute (key : jsstring) : Attribute.t :=
  {| Attribute.default := None;
     Attribute.parseHTML := λ element, element !! data_name key;
     Attribute.renderHTML := λ attributes,
       if negb (truthy (attr_value attributes key)) then ∅
       else {[ data_name key := attr_value attributes key ]};
     Attribute.keepOnSplit := true |}.

(** [addAttributes()]: the three attributes of a mention, by key. *)
Definition addAttributes : list (jsstring * Attribute.t) :=
  [(of_string "id", getStandardAttribute (of_string "id"));
   (of_string "collection", getStandardAttribute (of_string "collection"));
   (of_string "value", getStandardAttribute (of_string "value"))].

(** Modelled from the spec: the host serializes a node by an attribute
    copy. It joins what the [renderHTML] of each attribute returns, and the
    element gets the entries that hold a string. *)
Definition render_all (attributes : gmap (list Z) (option (list Z)))
  : gmap (list Z) (option (list Z)) :=
  foldr (λ ka acc, Attribute.renderHTML ka.2 attributes ∪ acc) ∅
        addAttributes.

Definition element_of (rendered : gmap (list Z) (option (list Z)))
  : gmap (list Z) (list Z) :=
  omap (λ v, v) rendered.

(** ** The remaining plugin props *)

(** [name: 'mention']. *)
Definition name : jsstring := of_string "mention".

(** [props.decorationId()]: the selector of the marker of the current
    plugin state, or [null]. The unit 34 is the double quote. *)
Definition decorationId_selector (current : State.t) : option jsstring :=
  match State.decorationId current with
  | Some id =>
      if truthy (Some id)
      then Some (of_string "[data-decoration-id=" ++ [34] ++ id ++ [34]
                 ++ of_string "]")
      else None
  | None => None
  end.

Module Decoration.
(** [Decoration.inline(from, to, {nodeName, 'data-decoration-id'})]. *)
Record t := {
  from : option Z;
  to : option Z;
  nodeName : jsstring;
  data_decoration_id : option jsstring
}.
End Decoration.

(** [decorations(state)]: [None] is [null], otherwise the content of the
    decoration set. *)
Definition decorations (h : Store) (state : State.t)
  : option (list Decoration.t) :=
  if negb (State.active state) then None
  else Some [ {| Decoration.from := range_from h (State.range state);
                 Decoration.to := range_to h (State.range state);
                 Decoration.nodeName := of_string "span";
                 Decoration.data_decoration_id := State.decorationId state |} ].

Section key_and_click.
Context {Event : Type}.

(** [handleKeyDown(view, event)]. [onKeyDown] is the hook when the bundle
    exists and defines it; the hook gets the event and the range object. *)
Definition handleKeyDown (onKeyDown : option (Event → loc → bool))
    (state : State.t) (event : Event) : bool :=
  if negb (State.active state) then false
  else match onKeyDown with
       | Some hook => hook event (State.range state) || false
       | None => false
       end.

(** [handleClickOn(_view, _pos, node, _nodePos, _event, isDirect)]: the
    result and the values [options.handleMentionClick] is called with.
    [handler_defined] tells whether the option is set. *)
Definition handleClickOn (handler_defined : bool) (node_type_name : jsstring)
    (node_attrs : gmap (list Z) (option (list Z))) (isDirect : bool)
  : bool * list (gmap (list Z) (option (list Z))) :=
  if bool_decide (node_type_name = name) && isDirect then
    (true, if handler_defined then [node_attrs] else [])
  else (false, []).

End key_and_click.

(** ** Counting hook calls *)

Definition is_hook (hk : Hook) (c : HookCall) : bool :=
  match hk, c.1 with
  | onStart, onStart | onUpdate, onUpdate | onExit, onExit => true
  | _, _ => false
  end.

Definition count_hook (hk : Hook) (calls : list HookCall) : nat :=
  length (List.filter (is_hook hk) calls).

(** The state after the last step of a run. *)
Definition final_state (steps : list Step) (prev : State.t) (h : Store)
  : State.t :=
  default prev (last (run steps prev h).1).

Definition one_if (b : bool) : nat := if b then 1%nat else 0%nat.

(** * Proofs *)

(** ** The trigger pattern *)

Lemma lazy_dots_bound s n : lazy_dots s = Some n → (n ≤ length s)%nat.
Proof.
  revert n. induction s as [|c rest IH]; intros n; simpl.
  - intros [= <-]. lia.
  - destruct (_ || _); [intros [= <-]; lia|].
    destruct (is_line_terminator c); [done|].
    destruct (lazy_dots rest) as [k|]; simpl; [|done].
    intros [= <-]. specialize (IH k eq_refl). lia.
Qed.

Lemma match_here_Some s n :
  match_here s = Some n →
  ∃ rest k, s = char :: rest ∧ n = S k ∧ (k ≤ length rest)%nat.
Proof.
  destruct s as [|c rest]; simpl; [done|].
  destruct (c =? char) eqn:E; [|done].
  apply Z.eqb_eq in E as ->.
  destruct (lazy_dots rest) as [k|] eqn:L; simpl; [|done].
  intros [= <-]. exists rest, k. eauto using lazy_dots_bound.
Qed.

Lemma match_all_from_elem inp idx skip s m :
  m ∈ match_all_from inp idx skip s →
  input m = inp
  ∧ (∃ q, matched m = char :: q)
  ∧ (idx ≤ index m)%nat
  ∧ s !! (index m - idx)%nat = Some char.
Proof.
  revert idx skip. induction s as [|c rest IH]; intros idx skip;
    cbn [match_all_from].
  - intros H. by apply elem_of_nil in H.
  - assert (Hrec : ∀ k, m ∈ match_all_from inp (S idx) k rest →
        input m = inp ∧ (∃ q, matched m = char :: q) ∧ (idx ≤ index m)%nat
        ∧ (c :: rest) !! (index m - idx)%nat = Some char).
    { intros k Hk. destruct (IH _ _ Hk) as (Hi & Hq & Hle & Hat).
      repeat split; [done|done|lia|].
      replace (index m - idx)%nat with (S (index m - S idx)) by lia. done. }
    destruct skip as [|k]; [|by apply Hrec].
    destruct (match_here (c :: rest)) as [len|] eqn:Hm; [|by apply Hrec].
    intros [->|Hin]%elem_of_cons; [|by eapply Hrec].
    apply match_here_Some in Hm as (rest' & k & [= -> ->] & -> & _).
    simpl. rewrite Nat.sub_diag. repeat split; eauto.
Qed.

Lemma match_all_from_no_trigger inp idx skip s :
  char ∉ s → match_all_from inp idx skip s = [].
Proof.
  revert idx skip. induction s as [|c rest IH]; intros idx skip Hs; [done|].
  apply not_elem_of_cons in Hs as [Hc Hrest]. simpl.
  destruct skip; [|by apply IH].
  destruct (c =? char) eqn:E; [apply Z.eqb_eq in E; congruence|].
  by apply IH.
Qed.

Ltac zbool :=
  repeat match goal with
  | |- context [?a <? ?b] => destruct (Z.ltb_spec a b)
  | |- context [?a >=? ?b] => rewrite (Z.geb_leb a b); destruct (Z.leb_spec b a)
  | |- context [?a <=? ?b] => destruct (Z.leb_spec a b)
  end; try lia.

Lemma slice_tail c (rest : jsstring) : slice (c :: rest) 1 None = rest.
Proof.
  unfold slice, clamp_index. cbn [length]. zbool.
  - destruct rest; [done|]. cbn [length] in *. lia.
  - replace (Z.min 1 (Z.of_nat (S (length rest)))) with 1 by lia.
    replace (Z.to_nat (Z.of_nat (S (length rest)) - 1)) with (length rest) by lia.
    change (Z.to_nat 1) with 1%nat. simpl. rewrite drop_0. apply take_ge. lia.
Qed.

Lemma slice_before (s : jsstring) (i : nat) c :
  (0 < i)%nat → s !! (i - 1)%nat = Some c →
  slice s (Z.max 0 (Z.of_nat i - 1)) (Some (Z.of_nat i)) = [c].
Proof.
  intros Hi Hc. pose proof (lookup_lt_Some _ _ _ Hc) as Hlt.
  unfold slice, clamp_index. zbool.
  replace (Z.min (Z.max 0 (Z.of_nat i - 1)) (Z.of_nat (length s))) with (Z.of_nat (i - 1)) by lia.
  replace (Z.min (Z.of_nat i) (Z.of_nat (length s))) with (Z.of_nat i) by lia.
  replace (Z.to_nat (Z.of_nat i - Z.of_nat (i - 1))) with 1%nat by lia.
  rewrite Nat2Z.id. erewrite drop_S by done. done.
Qed.

Lemma last_elem_of {A} (l : list A) (x : A) : last l = Some x → x ∈ l.
Proof.
  intros H. apply list_elem_of_lookup. exists (pred (length l)).
  by rewrite <- last_lookup.
Qed.

Lemma matchAll_last text m :
  last (matchAll text) = Some m →
  input m = text ∧ (∃ q, matched m = char :: q)
  ∧ text !! index m = Some char.
Proof.
  intros H%last_elem_of. unfold matchAll in H.
  apply match_all_from_elem in H as (Hi & Hq & _ & Hat).
  rewrite Nat.sub_0_r in Hat. done.
Qed.

Lemma embedded_candidate_rejected p m c :
  last (matchAll (slice_text p)) = Some m →
  (0 < index m)%nat →
  slice_text p !! (index m - 1)%nat = Some c →
  is_white_space c = false → c ≠ 0 →
  findSuggestionMatch p = None.
Proof.
  intros Hm Hidx Hc Hws H0.
  destruct (matchAll_last _ _ Hm) as (Hin & _ & _).
  unfold findSuggestionMatch. rewrite Hm.
  destruct (negb _); [done|].
  rewrite Hin, (slice_before _ _ c) by done.
  cbn [prefix_test]. rewrite Hws.
  destruct (Z.eqb_spec c 0); [done|]. done.
Qed.

(** C8. When the unit just before the candidate span (the last match of
    the trigger pattern in the slice) is neither white space nor the NUL
    placeholder, and the span does not start the slice, the scanner
    returns no match. So it returns no match on a slice where every
    trigger character sits right after such a unit, and on every prefix of
    [x@bob], that is for every cursor in that text, whatever the offsets
    of the block. *)
Theorem scanner_rejects_embedded_trigger :
  (∀ p m c,
      last (matchAll (slice_text p)) = Some m →
      (0 < index m)%nat →
      slice_text p !! (index m - 1)%nat = Some c →
      is_white_space c = false → c ≠ 0 →
      findSuggestionMatch p = None)
  ∧ (∀ p,
      (∀ i : nat, slice_text p !! i = Some char →
         (0 < i)%nat
         ∧ ∃ c, slice_text p !! (i - 1)%nat = Some c
                ∧ is_white_space c = false ∧ c ≠ 0) →
      findSuggestionMatch p = None)
  ∧ (∀ p k,
      slice_text p = take k (of_string "x@bob") →
      findSuggestionMatch p = None).
Proof.
  split; [apply embedded_candidate_rejected|]. split.
  - intros p Hall.
    destruct (last (matchAll (slice_text p))) as [m|] eqn:Hm.
    + destruct (matchAll_last _ _ Hm) as (_ & _ & Hat).
      destruct (Hall _ Hat) as (Hidx & c & Hc & Hws & H0).
      by eapply embedded_candidate_rejected.
    + unfold findSuggestionMatch. by rewrite Hm.
  - intros p k Hk. unfold findSuggestionMatch. rewrite Hk.
    do 6 (destruct k as [|k]; [reflexivity|]). reflexivity.
Qed.

Lemma scanner_rejects_embedded_trigger_witness :
  findSuggestionMatch (cursor_in_block (of_string "x@bob") 1 5) = None.
Proof.
  apply (proj1 scanner_rejects_embedded_trigger
           (cursor_in_block (of_string "x@bob") 1 5)
           {| index := 1; matched := of_string "@bob";
              input := of_string "x@bob" |} 120);
    [reflexivity | simpl; lia | reflexivity | reflexivity | lia].
Defined.

(** C9. On a slice that holds no trigger character the scanner returns no
    match, whatever the cursor and block offsets. *)
Theorem scanner_no_trigger_no_match (p : ResolvedPos) :
  char ∉ slice_text p → findSuggestionMatch p = None.
Proof.
  intros H. unfold findSuggestionMatch, matchAll.
  by rewrite match_all_from_no_trigger.
Qed.

Lemma scanner_no_trigger_no_match_witness :
  findSuggestionMatch (cursor_in_block (of_string "hello bob") 1 9) = None.
Proof.
  apply scanner_no_trigger_no_match. vm_compute.
  intros H. repeat (apply elem_of_cons in H as [H|H]; [discriminate H|]).
  by apply elem_of_nil in H.
Defined.

(** C10. A match the scanner returns has a [text] that begins with the
    trigger character, a [query] that is [text] without that first unit,
    and a range as long as [text]. *)
Theorem scanner_match_shape (p : ResolvedPos) (r : Match.t) :
  findSuggestionMatch p = Some r →
  (∃ q, Match.text r = char :: q ∧ Match.query r = q)
  ∧ to (Match.range r) - from (Match.range r)
    = Z.of_nat (length (Match.text r))
  ∧ from (Match.range r) <= to (Match.range r).
Proof.
  unfold findSuggestionMatch.
  destruct (last _) as [m|] eqn:Hm; [|done].
  destruct (matchAll_last _ _ Hm) as (_ & (q & Hq) & _).
  destruct (negb (_ && _)); [done|].
  destruct (negb (prefix_test _)); [done|].
  destruct (_ && _); [|done].
  intros [= <-]. cbn. rewrite Hq.
  destruct (suffix_test _); cbn [app length];
    rewrite slice_tail; (split; [eauto|]); rewrite ?length_app; cbn [length]; lia.
Qed.

Lemma scanner_match_shape_witness :
  ∃ q, of_string "@bob" = char :: q ∧ of_string "bob" = q.
Proof.
  exact (proj1 (scanner_match_shape
                  (cursor_in_block (of_string "hello @bob ") 1 10) _
                  eq_refl)).
Defined.

(** ** The state machine *)

Lemma apply_with_cases scan env tr prev h :
  apply_with scan env tr prev h = inactive h
  ∨ ∃ m f,
      (empty (selection tr) || composing env) = true
      ∧ scan (resolved_from (selection tr)) = Some m
      ∧ allow env = Some f ∧ f (Match.range m) = true
      ∧ apply_with scan env tr prev h
        = ({| State.active := true;
              State.range := length h;
              State.query := Some (Match.query m);
              State.text := Some (Match.text m);
              State.decorationId :=
                if truthy (State.decorationId prev)
                then State.decorationId prev
                else Some (fresh_id (random env)) |},
           h ++ [Some (Match.range m)]).
Proof.
  unfold apply_with.
  destruct (empty (selection tr) || composing env) eqn:Hgate; [|by left].
  destruct (scan _) as [m|] eqn:Hscan; [|by left].
  destruct (allow env) as [f|] eqn:Hallow; [|by left].
  destruct (f (Match.range m)) eqn:Hf; [|by left].
  right. exists m, f. done.
Qed.

Lemma fresh_id_truthy n : truthy (Some (fresh_id n)) = true.
Proof. done. Qed.

Lemma of_string_inj : Inj (=) (=) of_string.
Proof.
  assert (Inj (=) (=) (λ a, Z.of_N (N_of_ascii a))) as Hunit.
  { intros a b Hab. apply (inj Z.of_N) in Hab.
    rewrite <- (ascii_N_embedding a), <- (ascii_N_embedding b). by f_equal. }
  intros s1 s2 H. unfold of_string in H.
  apply (list_fmap_eq_inj _ Hunit) in H.
  rewrite <- (string_of_list_ascii_of_string s1),
          <- (string_of_list_ascii_of_string s2). by f_equal.
Qed.

Lemma fresh_id_inj : Inj (=) (=) fresh_id.
Proof.
  intros n1 n2 H. unfold fresh_id in H.
  apply app_inv_head in H. apply of_string_inj in H.
  by apply (inj pretty) in H.
Qed.

Lemma apply_well_formed env tr prev h : well_formed (apply env tr prev h).1.
Proof.
  unfold apply.
  destruct (apply_with_cases findSuggestionMatch env tr prev h)
    as [->|(m & f & _ & _ & _ & _ & ->)]; [done|].
  unfold well_formed; cbn.
  destruct (truthy (State.decorationId prev)) eqn:E; [done|].
  apply fresh_id_truthy.
Qed.

Lemma deref_alloc (h : Store) o : deref (h ++ [o]) (length h) = o.
Proof. unfold deref. by rewrite list_lookup_middle. Qed.

Lemma scanner_cursor_in_span p m :
  findSuggestionMatch p = Some m →
  from (Match.range m) < pos p <= to (Match.range m).
Proof.
  unfold findSuggestionMatch.
  destruct (last _) as [rm|]; [|done].
  destruct (negb (_ && _)); [done|].
  destruct (negb (prefix_test _)); [done|].
  destruct (_ && _) eqn:Hin; [|done].
  intros [= <-]. cbn. apply andb_prop in Hin as [H1 H2]. lia.
Qed.

(** C4. In the initial state and in every state [apply] returns,
    [decorationId] is not [null] exactly when [active] is true. *)
Theorem decorationId_iff_active :
  (∀ h, State.decorationId (init h).1 ≠ None
        ↔ State.active (init h).1 = true)
  ∧ (∀ env tr prev h,
       State.decorationId (apply env tr prev h).1 ≠ None
       ↔ State.active (apply env tr prev h).1 = true).
Proof.
  split.
  - intros h. cbn. split; [congruence|discriminate].
  - intros env tr prev h. unfold apply.
    destruct (apply_with_cases findSuggestionMatch env tr prev h)
      as [->|(m & f & _ & _ & _ & _ & ->)]; cbn.
    + split; [congruence|discriminate].
    + split; [done|]. intros _.
      destruct (truthy (State.decorationId prev)) eqn:E; [|done].
      by destruct (State.decorationId prev).
Qed.

Lemma decorationId_iff_active_witness :
  State.decorationId typed_bo.1 ≠ None ↔ State.active typed_bo.1 = true.
Proof.
  apply (proj2 decorationId_iff_active (permissive false 7)
           (transaction (cursor_step (permissive false 7) "@bo" 3 true))
           (init []).1 (init []).2).
Defined.

Lemma apply_inactive_query env tr prev h :
  State.active (apply env tr prev h).1 = false →
  State.query (apply env tr prev h).1 = None.
Proof.
  unfold apply.
  destruct (apply_with_cases findSuggestionMatch env tr prev h)
    as [->|(m & f & _ & _ & _ & _ & ->)]; cbn; done.
Qed.

Section one_step.
Context (env : Env) (tr : Transaction) (prev : State.t) (h : Store).

Let next : State.t := (apply env tr prev h).1.

Lemma apply_started :
  well_formed prev → State.active prev = false →
  State.active next = true →
  State.decorationId next = Some (fresh_id (random env)).
Proof.
  unfold next, well_formed, apply. intros Hwf Hprev. rewrite Hprev in Hwf.
  destruct (apply_with_cases findSuggestionMatch env tr prev h)
    as [->|(m & f & _ & _ & _ & _ & ->)]; cbn; [done|].
  by rewrite Hwf.
Qed.

Lemma apply_stays_active :
  well_formed prev → State.active prev = true →
  State.active next = true →
  State.decorationId next = State.decorationId prev.
Proof.
  unfold next, well_formed, apply. intros Hwf Hprev. rewrite Hprev in Hwf.
  destruct (apply_with_cases findSuggestionMatch env tr prev h)
    as [->|(m & f & _ & _ & _ & _ & ->)]; cbn; [done|].
  by rewrite Hwf.
Qed.

Lemma apply_stopped :
  State.active next = false → State.decorationId next = None.
Proof.
  unfold next, apply.
  destruct (apply_with_cases findSuggestionMatch env tr prev h)
    as [->|(m & f & _ & _ & _ & _ & ->)]; cbn; done.
Qed.

End one_step.

Lemma run_cons st rest prev h :
  (run (st :: rest) prev h).1
  = (apply (env st) (transaction st) prev h).1
    :: (run rest (apply (env st) (transaction st) prev h).1
            (apply (env st) (transaction st) prev h).2).1.
Proof.
  cbn [run]. destruct (apply _ _ _ _) as [next h1]. cbn [fst snd].
  by destruct (run rest next h1).
Qed.

Lemma run_continuous steps prev h :
  well_formed prev → State.active prev = true →
  (∀ s, s ∈ (run steps prev h).1 → State.active s = true) →
  ∀ s, s ∈ (run steps prev h).1 →
       State.decorationId s = State.decorationId prev.
Proof.
  revert prev h. induction steps as [|st rest IH]; intros prev h Hwf Hact Hall s.
  - cbn. intros H. by apply elem_of_nil in H.
  - rewrite run_cons in Hall |- *.
    set (next := (apply (env st) (transaction st) prev h).1) in *.
    assert (State.active next = true) as Hnext by (apply Hall; left).
    assert (State.decorationId next = State.decorationId prev) as Hid
      by by apply apply_stays_active.
    intros [->|Hin]%elem_of_cons; [done|].
    rewrite <- Hid. eapply IH; [apply apply_well_formed|done| |done].
    intros s' Hs'. apply Hall. by right.
Qed.

(** C5 (amended). From an inactive state a state that becomes active
    carries the identifier made from this call's random draw; a state that
    stays active carries the previous identifier; a state that becomes
    inactive carries [null]; so the identifier is the same through a run of
    active states, and the identifiers of two starts are equal exactly when
    their draws are equal, whatever the query. *)
Theorem decorationId_lifecycle :
  (∀ h, well_formed (init h).1)
  ∧ (∀ env tr prev h, well_formed (apply env tr prev h).1)
  ∧ (∀ env tr prev h,
       well_formed prev → State.active prev = false →
       State.active (apply env tr prev h).1 = true →
       State.decorationId (apply env tr prev h).1
       = Some (fresh_id (random env)))
  ∧ (∀ env tr prev h,
       well_formed prev → State.active prev = true →
       State.active (apply env tr prev h).1 = true →
       State.decorationId (apply env tr prev h).1 = State.decorationId prev)
  ∧ (∀ env tr prev h,
       State.active (apply env tr prev h).1 = false →
       State.decorationId (apply env tr prev h).1 = None)
  ∧ (∀ steps prev h,
       well_formed prev → State.active prev = true →
       (∀ s, s ∈ (run steps prev h).1 → State.active s = true) →
       ∀ s, s ∈ (run steps prev h).1 →
            State.decorationId s = State.decorationId prev)
  ∧ (∀ n1 n2, fresh_id n1 = fresh_id n2 ↔ n1 = n2).
Proof.
  split; [done|].
  split; [apply apply_well_formed|].
  split; [apply apply_started|].
  split; [apply apply_stays_active|].
  split; [apply apply_stopped|].
  split; [apply run_continuous|].
  intros n1 n2. split; [apply fresh_id_inj|by intros ->].
Qed.

Lemma decorationId_lifecycle_witness :
  State.decorationId
    (apply (permissive false 7) (transaction (cursor_step (permissive false 7) "@b" 2 true))
           (init []).1 (init []).2).1
  = Some (fresh_id 7).
Proof.
  apply (proj1 (proj2 (proj2 decorationId_lifecycle))
           (permissive false 7)); [done|reflexivity|reflexivity].
Defined.

Lemma separate_sessions_same_id :
  ¬ separate_sessions_differ
      [cursor_step (permissive false 7) "@b" 2 true;
       cursor_step (permissive false 7) "@b" 0 true;
       cursor_step (permissive false 7) "@b" 2 true].
Proof.
  intros H.
  eapply (H 0%nat 1%nat 2%nat); [lia|lia|reflexivity..].
Qed.

(** C6 (amended). A state that [apply] returns is active only when the
    selection is collapsed or an input composition is in progress, the
    scanner has returned a match at the start of the selection, the
    [allow] hook has accepted its range, the store
    holds that match's range as the range of the new state, and that
    position lies after the start and at or before the end of the range.
    When the selection is not collapsed and no composition is in progress,
    the result is the inactive state whatever the scanner is: the scanner
    is not consulted. *)
Theorem active_needs_scanner_match :
  (∀ env tr prev h,
     State.active (apply env tr prev h).1 = true →
     (empty (selection tr) = true ∨ composing env = true)
     ∧ ∃ m f,
         findSuggestionMatch (resolved_from (selection tr)) = Some m
         ∧ allow env = Some f ∧ f (Match.range m) = true
         ∧ deref (apply env tr prev h).2
                 (State.range (apply env tr prev h).1)
           = Some (Match.range m)
         ∧ from (Match.range m) < pos (resolved_from (selection tr))
           <= to (Match.range m))
  ∧ (∀ scan env tr prev h,
       empty (selection tr) = false → composing env = false →
       apply_with scan env tr prev h = inactive h).
Proof.
  split.
  - intros env tr prev h. unfold apply.
    destruct (apply_with_cases findSuggestionMatch env tr prev h)
      as [->|(m & f & Hgate & Hscan & Hallow & Hf & ->)]; cbn; [done|].
    intros _. split; [by apply orb_prop|].
    exists m, f. rewrite deref_alloc.
    eauto 6 using scanner_cursor_in_span.
  - intros scan env tr prev h He Hc. unfold apply_with. by rewrite He, Hc.
Qed.

Lemma active_needs_scanner_match_witness :
  apply_with (λ _, None) (permissive false 7)
    (transaction (cursor_step (permissive false 7) "@b" 2 false))
    (init []).1 (init []).2
  = inactive (init []).2.
Proof.
  apply (proj2 active_needs_scanner_match); reflexivity.
Defined.

Lemma composing_range_selection_active :
  ¬ active_only_when_collapsed (permissive true 7)
      (transaction (cursor_step (permissive true 7) "@b" 2 false))
      (init []).1 (init []).2.
Proof. intros H. by specialize (H eq_refl). Qed.

(** ** The view *)

(** Closes a goal whose hypothesis [H] puts a call of one hook into an
    explicit list of calls of other hooks. *)
Ltac no_such_call H :=
  repeat (apply elem_of_cons in H as [H|H]; [discriminate H|]);
  by apply elem_of_nil in H.

Lemma moved_active h prev next :
  moved h prev next = true →
  State.active prev = true ∧ State.active next = true.
Proof.
  unfold moved. intros H.
  apply andb_prop in H as [H _]. by apply andb_prop in H.
Qed.

Lemma update_moved renderer h prev next :
  moved h prev next = true →
  update renderer h prev next
  = invoke renderer onExit (props_of next)
    ++ invoke renderer onStart (props_of next).
Proof.
  intros Hm. destruct (moved_active _ _ _ Hm) as [Hp Hn].
  unfold update. rewrite Hm, Hp, Hn. cbn.
  by rewrite andb_false_r.
Qed.

(** C1 (amended). On a [moved] update the view calls [onExit] and then
    [onStart], each only if the bundle defines it, both with one props
    object whose range is the range object of the new state and whose
    query and text are the query and text of the new state, and it does
    not call [onUpdate]. *)
Theorem moved_fires_exit_then_start renderer h prev next :
  moved h prev next = true →
  update renderer h prev next
  = invoke renderer onExit (props_of next)
    ++ invoke renderer onStart (props_of next)
  ∧ (∃ p,
       update (Some all_hooks) h prev next = [(onExit, p); (onStart, p)]
       ∧ Props.range p = State.range next
       ∧ Props.query p = State.query next
       ∧ Props.text p = State.text next
       ∧ Props.state p = next)
  ∧ (∀ hk p, (hk, p) ∈ update renderer h prev next →
       (hk = onExit ∨ hk = onStart)
       ∧ Props.range p = State.range next
       ∧ Props.query p = State.query next
       ∧ Props.text p = State.text next)
  ∧ update (Some all_hooks) h prev next
    = [(onExit, props_of next); (onStart, props_of next)]
  ∧ ∀ p, (onUpdate, p) ∉ update renderer h prev next.
Proof.
  intros Hm. rewrite !update_moved by done. split_and!.
  - done.
  - exists (props_of next). by split_and!.
  - intros hk p Hin. apply elem_of_app in Hin.
    destruct renderer as [r|]; cbn in Hin.
    + destruct (has_onExit r), (has_onStart r);
        destruct Hin as [Hin|Hin];
        try (by apply elem_of_nil in Hin);
        apply list_elem_of_singleton in Hin; injection Hin as -> ->;
        split_and!; eauto.
    + destruct Hin as [Hin|Hin]; by apply elem_of_nil in Hin.
  - done.
  - intros p Hin. apply elem_of_app in Hin.
    destruct renderer as [r|]; cbn in Hin.
    + destruct (has_onExit r), (has_onStart r);
        destruct Hin as [Hin|Hin];
        no_such_call Hin.
    + destruct Hin as [Hin|Hin]; by apply elem_of_nil in Hin.
Qed.

Lemma moved_fires_exit_then_start_witness :
  ∃ p,
    update (Some all_hooks) two_spans (session_at 0 "a") (session_at 1 "b")
    = [(onExit, p); (onStart, p)]
    ∧ Props.range p = 1%nat
    ∧ Props.query p = Some (of_string "b")
    ∧ Props.text p = Some (of_string "@b")
    ∧ Props.state p = session_at 1 "b".
Proof.
  exact (proj1 (proj2 (moved_fires_exit_then_start (Some all_hooks) two_spans
                         (session_at 0 "a") (session_at 1 "b") eq_refl))).
Defined.

Lemma moved_exit_carries_new_data :
  ¬ moved_exits_with_old_data two_spans (session_at 0 "a") (session_at 1 "b").
Proof.
  intros H. destruct (H eq_refl) as (pe & ps & Hcalls & _ & Hq & _).
  vm_compute in Hcalls. injection Hcalls as <- <-.
  discriminate Hq.
Qed.

Lemma onUpdate_only_for_active renderer h prev next p :
  (State.active prev = false → State.query prev = None) →
  (State.active next = false → State.query next = None) →
  (onUpdate, p) ∈ update renderer h prev next →
  State.active (Props.state p) = true.
Proof.
  intros Hprev Hnext.
  destruct (moved h prev next) eqn:Hm.
  { rewrite update_moved by done.
    destruct renderer as [r|]; cbn; [|by intros ?%elem_of_nil].
    destruct (has_onExit r), (has_onStart r); cbn; intros Hin;
      no_such_call Hin. }
  unfold update. rewrite Hm.
  destruct (State.active prev) eqn:Hp, (State.active next) eqn:Hn; cbn.
  - destruct (bool_decide _); cbn; [by intros ?%elem_of_nil|].
    destruct renderer as [r|]; cbn; [|by intros ?%elem_of_nil].
    destruct (has_onUpdate r); cbn; [|by intros ?%elem_of_nil].
    intros Hin. apply elem_of_cons in Hin as [[= ->]|Hin]; [done|].
    by apply elem_of_nil in Hin.
  - destruct renderer as [r|]; cbn; [|by intros ?%elem_of_nil].
    destruct (has_onExit r); cbn; intros Hin;
      no_such_call Hin.
  - destruct renderer as [r|]; cbn; [|by intros ?%elem_of_nil].
    destruct (has_onStart r); cbn; intros Hin;
      no_such_call Hin.
  - rewrite Hprev, Hnext by done. cbn. by intros ?%elem_of_nil.
Qed.

(** C3. For states that are inactive, then active with query [b], then
    active with query [bo] and the same start offset, then inactive, the
    three updates call exactly [onStart], [onUpdate], [onExit], in that
    order: [onStart] with the range, query [b] and text of the first
    active state, [onUpdate] and [onExit] with the range, query [bo] and
    text of the second; and every [onUpdate] call carries the range, query
    and text of an active state, with a query that is not [null]. *)
Theorem lifecycle_start_update_exit h1 h2 h3 s0 s1 s2 s3 :
  State.active s0 = false →
  State.active s1 = true → State.query s1 = Some (of_string "b") →
  State.active s2 = true → State.query s2 = Some (of_string "bo") →
  range_from h2 (State.range s1) = range_from h2 (State.range s2) →
  State.active s3 = false →
  let calls :=
    update (Some all_hooks) h1 s0 s1
    ++ update (Some all_hooks) h2 s1 s2
    ++ update (Some all_hooks) h3 s2 s3 in
  calls = [(onStart, props_of s1); (onUpdate, props_of s2);
           (onExit, props_of s2)]
  ∧ (∃ p1 p2 p3,
       calls = [(onStart, p1); (onUpdate, p2); (onExit, p3)]
       ∧ (Props.range p1 = State.range s1
          ∧ Props.query p1 = Some (of_string "b")
          ∧ Props.text p1 = State.text s1)
       ∧ (Props.range p2 = State.range s2
          ∧ Props.query p2 = Some (of_string "bo")
          ∧ Props.text p2 = State.text s2)
       ∧ (Props.range p3 = State.range s2
          ∧ Props.query p3 = Some (of_string "bo")
          ∧ Props.text p3 = State.text s2))
  ∧ (∀ p, (onUpdate, p) ∈ calls → State.active (Props.state p) = true)
  ∧ (∀ p, (onUpdate, p) ∈ calls →
       Props.query p ≠ None
       ∧ ∃ s, State.active s = true
              ∧ Props.range p = State.range s
              ∧ Props.query p = State.query s
              ∧ Props.text p = State.text s).
Proof.
  intros H0 H1 Hq1 H2 Hq2 Hfrom H3 calls.
  assert (calls = [(onStart, props_of s1); (onUpdate, props_of s2);
                   (onExit, props_of s2)]) as ->.
  { unfold calls, update, moved.
    rewrite H0, H1, H2, H3, Hq1, Hq2, Hfrom.
    rewrite (bool_decide_eq_true_2 _ eq_refl). cbn.
    rewrite ?andb_false_r. reflexivity. }
  split_and!.
  - done.
  - exists (props_of s1), (props_of s2), (props_of s2). cbn.
    by rewrite Hq1, Hq2.
  - intros p Hin.
    repeat (apply elem_of_cons in Hin as [Hin|Hin];
            [try discriminate Hin; injection Hin as ->; done|]).
    by apply elem_of_nil in Hin.
  - intros p Hin.
    repeat (apply elem_of_cons in Hin as [Hin|Hin];
            [try discriminate Hin; injection Hin as ->|]);
      [|by apply elem_of_nil in Hin].
    cbn. split; [by rewrite Hq2|]. by exists s2.
Qed.

Lemma lifecycle_start_update_exit_witness :
  ∃ p1 p2 p3,
    update (Some all_hooks) two_spans (init []).1 (session_at 0 "b")
    ++ update (Some all_hooks) [Some {| from := 1; to := 3 |};
                                Some {| from := 1; to := 4 |}]
         (session_at 0 "b") (session_at 1 "bo")
    ++ update (Some all_hooks) two_spans (session_at 1 "bo") (init []).1
    = [(onStart, p1); (onUpdate, p2); (onExit, p3)]
    ∧ (Props.range p1 = 0%nat
       ∧ Props.query p1 = Some (of_string "b")
       ∧ Props.text p1 = Some (of_string "@b"))
    ∧ (Props.range p2 = 1%nat
       ∧ Props.query p2 = Some (of_string "bo")
       ∧ Props.text p2 = Some (of_string "@bo"))
    ∧ (Props.range p3 = 1%nat
       ∧ Props.query p3 = Some (of_string "bo")
       ∧ Props.text p3 = Some (of_string "@bo")).
Proof.
  exact (proj1 (proj2 (lifecycle_start_update_exit two_spans
           [Some {| from := 1; to := 3 |}; Some {| from := 1; to := 4 |}]
           two_spans (init []).1 (session_at 0 "b") (session_at 1 "bo")
           (init []).1 eq_refl eq_refl eq_refl eq_refl eq_refl eq_refl
           eq_refl))).
Defined.

(** ** The store and the commit command *)

Lemma deref_Some_lookup (h : Store) l r :
  deref h l = Some r → h !! l = Some (Some r).
Proof. unfold deref. destruct (h !! l) as [[?|]|]; cbn; congruence. Qed.

Lemma deref_insert (h : Store) l r o :
  deref h l = Some r → deref (<[l := o]> h) l = o.
Proof.
  intros H%deref_Some_lookup%lookup_lt_Some. unfold deref.
  by rewrite list_lookup_insert_eq.
Qed.

Lemma command_result state n attrs h r :
  deref h (State.range state) = Some r →
  let adjusted :=
    {| from := from r;
       to := if starts_with_space n then to r + 1 else to r |} in
  command state n attrs h
  = Some ([Focus;
           InsertContentAt adjusted [MentionSpec attrs; TextSpec [32]]],
          if starts_with_space n
          then <[State.range state := Some adjusted]> h else h).
Proof.
  intros Hr. unfold command. fold (starts_with_space n).
  destruct (starts_with_space n); cbn.
  - unfold increment_to. rewrite Hr. cbn.
    erewrite deref_insert by done. done.
  - rewrite Hr. cbn. by destruct r.
Qed.

Lemma command_Some state n attrs h requests h' :
  command state n attrs h = Some (requests, h') →
  ∃ r, deref h (State.range state) = Some r.
Proof.
  unfold command. destruct (deref h (State.range state)) as [r|] eqn:Hr; [eauto|].
  destruct (match n with Some (TextNode t) => _ | _ => _ end); cbn.
  - unfold increment_to. by rewrite Hr.
  - by rewrite Hr.
Qed.

Lemma drop_adjusted (d : list Item) (n : Z) :
  0 <= n →
  drop (Z.to_nat (if starts_with_space (nodeAfter d n) then n + 1 else n)) d
  = drop_one_space (drop (Z.to_nat n) d).
Proof.
  intros Hn. unfold nodeAfter.
  destruct (drop (Z.to_nat n) d) as [|[c| |] rest] eqn:E; cbn; rewrite ?E; try done.
  destruct (c =? 32); [|done].
  replace (Z.to_nat (n + 1)) with (Z.to_nat n + 1)%nat by lia.
  by rewrite <- drop_drop, E.
Qed.

(** C2 (amended). For a state whose range object has both offsets, the
    command looks at the node after the end of the current selection; when
    that is a text node that starts with the space U+0020 it adds one to
    the end offset of the range, in place; it asks the host to focus and
    to replace the span by a mention node with the given attributes
    followed by a text node of one space. When the selection ends at the
    end of the range, the document afterwards holds the mention, the
    inserted space, and then what followed the span without its one leading
    space, if it had one. *)
Theorem commit_replaces_span state attrs ed h r :
  deref h (State.range state) = Some r →
  let over := starts_with_space (nodeAfter (doc ed) (selection_to ed)) in
  let adjusted :=
    {| from := from r; to := if over then to r + 1 else to r |} in
  command state (nodeAfter (doc ed) (selection_to ed)) attrs h
  = Some ([Focus;
           InsertContentAt adjusted [MentionSpec attrs; TextSpec [32]]],
          if over then <[State.range state := Some adjusted]> h else h)
  ∧ (selection_to ed = to r → 0 <= to r →
     ∃ h',
       commit state attrs ed h
       = Some (take (Z.to_nat (from r)) (doc ed)
               ++ [MentionNode attrs; Ch 32]
               ++ drop_one_space (drop (Z.to_nat (to r)) (doc ed)), h')).
Proof.
  intros Hr over adjusted. split; [by apply command_result|].
  intros Hsel Hto. unfold commit.
  rewrite (command_result _ _ _ _ _ Hr). cbn.
  eexists. do 2 f_equal. unfold insertContentAt. cbn.
  do 3 f_equal. rewrite Hsel. by apply drop_adjusted.
Qed.

Lemma commit_replaces_span_witness :
  ∃ h',
    commit (session_at 0 "bo") [] tab_editor tab_span
    = Some ([MentionNode []; Ch 32; Ch 9; Ch 120], h').
Proof.
  apply (proj2 (commit_replaces_span (session_at 0 "bo") [] tab_editor
                  tab_span {| from := 0; to := 3 |} eq_refl));
    [reflexivity | cbn; lia].
Defined.

Lemma commit_keeps_other_white_space :
  ¬ commit_leaves_one_white_space (session_at 0 "bo") [] tab_editor tab_span
  ∧ ¬ commit_leaves_one_white_space (session_at 0 "bo") []
        two_space_editor tab_span
  ∧ ¬ commit_leaves_one_white_space (session_at 0 "bo") []
        moved_cursor_editor tab_span.
Proof.
  split; [|split].
  - intros H. destruct (H _ eq_refl) as (d' & h' & Hc & Hd & _).
    vm_compute in Hc, Hd. rewrite Hd in Hc. discriminate Hc.
  - intros H. destruct (H _ eq_refl) as (d' & h' & Hc & _ & _ & Hw).
    vm_compute in Hc. injection Hc as <- _. discriminate Hw.
  - intros H. destruct (H _ eq_refl) as (d' & h' & Hc & Hd & _).
    vm_compute in Hc, Hd. rewrite Hd in Hc. discriminate Hc.
Qed.

(** C7 (amended). [init] and [apply] modify no existing range object: the
    state they return has a new range object, added to the store, and
    every object already in the store stays as it was. The commit command
    is the one operation that modifies an existing object: it leaves every
    other range object and the [from] of its state's range as they were,
    and it adds one to that range's [to] when the node after the selection
    is a text node that starts with a space; otherwise [to] stays too. *)
Theorem store_frame :
  (∀ h, ∃ o, (init h).2 = h ++ [o] ∧ State.range (init h).1 = length h)
  ∧ (∀ scan env tr prev h,
       ∃ o, (apply_with scan env tr prev h).2 = h ++ [o]
            ∧ State.range (apply_with scan env tr prev h).1 = length h)
  ∧ (∀ scan env tr prev (h : Store) l o,
       h !! l = Some o → (apply_with scan env tr prev h).2 !! l = Some o)
  ∧ (∀ state n attrs (h : Store) requests (h' : Store),
       command state n attrs h = Some (requests, h') →
       (∀ l, l ≠ State.range state → h' !! l = h !! l)
       ∧ range_from h' (State.range state)
         = range_from h (State.range state)
       ∧ range_to h' (State.range state)
         = if starts_with_space n
           then (λ t, t + 1) <$> range_to h (State.range state)
           else range_to h (State.range state)).
Proof.
  assert (Happ : ∀ scan env tr prev h,
             ∃ o, (apply_with scan env tr prev h).2 = h ++ [o]
                  ∧ State.range (apply_with scan env tr prev h).1 = length h).
  { intros scan env tr prev h.
    destruct (apply_with_cases scan env tr prev h)
      as [->|(m & f & _ & _ & _ & _ & ->)]; cbn; eauto. }
  split; [intros h; cbn; eauto|]. split; [done|]. split.
  - intros scan env tr prev h l o Hl.
    destruct (Happ scan env tr prev h) as (o' & -> & _).
    by apply lookup_app_l_Some.
  - intros state n attrs h requests h' Hc.
    destruct (command_Some _ _ _ _ _ _ Hc) as [r Hr].
    rewrite (command_result _ _ _ _ _ Hr) in Hc. injection Hc as _ <-.
    unfold range_from, range_to.
    destruct (starts_with_space n); [|done].
    split; [intros l Hl; by apply list_lookup_insert_ne|].
    erewrite deref_insert by done. by rewrite Hr.
Qed.

Lemma store_frame_witness :
  typed_bo.2 !! 0%nat = Some None.
Proof.
  apply (proj1 (proj2 (proj2 store_frame)) findSuggestionMatch
           (permissive false 7)
           (transaction (cursor_step (permissive false 7) "@bo" 3 true))
           (init []).1 (init []).2 0%nat None).
  reflexivity.
Defined.

Lemma command_moves_range_end :
  ¬ command_keeps_range typed_bo.1 (Some (TextNode (of_string " x"))) []
      typed_bo.2.
Proof.
  intros H. specialize (H _ _ eq_refl). vm_compute in H. discriminate H.
Qed.

(** ** The examples of the specification *)

Example scan_hello_bob :
  findSuggestionMatch (cursor_in_block (of_string "hello @bob ") 1 10)
  = Some {| Match.range := {| from := 7; to := 11 |};
            Match.query := of_string "bob";
            Match.text := of_string "@bob" |}.
Proof. reflexivity. Qed.

Example scan_adjacent_triggers :
  findSuggestionMatch (cursor_in_block (of_string "@a @b") 1 2)
  = Some {| Match.range := {| from := 1; to := 3 |};
            Match.query := of_string "a";
            Match.text := of_string "@a" |}.
Proof. reflexivity. Qed.

Example view_start_update_exit :
  let e := permissive false 7 in
  (run_view (Some all_hooks)
     [cursor_step e "@b" 2 true; cursor_step e "@bo" 3 true;
      cursor_step e "@bo" 0 true] (init []).1 (init []).2).*1
  = [onStart; onUpdate; onExit].
Proof. reflexivity. Qed.

Example commit_before_space :
  (commit (session_at 0 "bo") []
     {| doc := text_doc "@bo x"; selection_to := 3 |} tab_span)
  = Some ([MentionNode []; Ch 32; Ch 120], [Some {| from := 0; to := 4 |}]).
Proof. reflexivity. Qed.

Example commit_before_text :
  (commit (session_at 0 "bo") []
     {| doc := text_doc "@box"; selection_to := 3 |} tab_span)
  = Some ([MentionNode []; Ch 32; Ch 120], tab_span).
Proof. reflexivity. Qed.

(** * Further properties of the code *)

(** ** The trigger pattern, continued *)

Lemma lazy_dots_unfold s :
  lazy_dots s
  = if lookahead s then Some 0%nat
    else match s with
         | [] => None
         | c :: rest =>
             if is_line_terminator c then None else S <$> lazy_dots rest
         end.
Proof. by destruct s. Qed.

Lemma lookahead_line_terminator c rest :
  lookahead (c :: rest) = false → is_line_terminator c = false.
Proof. cbn. by intros [_ ?]%orb_false_elim. Qed.

Lemma lazy_dots_total s : is_Some (lazy_dots s).
Proof.
  induction s as [|c rest IH]; [by eexists|].
  rewrite lazy_dots_unfold.
  destruct (lookahead (c :: rest)) eqn:E; [by eexists|].
  rewrite (lookahead_line_terminator _ _ E).
  destruct IH as [n ->]. by eexists.
Qed.

Lemma lazy_dots_no_terminator s n :
  lazy_dots s = Some n →
  Forall (λ c, is_line_terminator c = false) (take n s).
Proof.
  revert n. induction s as [|c rest IH]; intros n.
  - intros _. by rewrite take_nil.
  - rewrite lazy_dots_unfold.
    destruct (lookahead (c :: rest)) eqn:E; [intros [= <-]; constructor|].
    rewrite (lookahead_line_terminator _ _ E).
    destruct (lazy_dots rest) as [k|]; [|done].
    intros [= <-]. cbn. constructor; [by eapply lookahead_line_terminator|].
    by apply IH.
Qed.

Lemma match_here_trigger rest : is_Some (match_here (char :: rest)).
Proof.
  cbn. destruct (lazy_dots_total rest) as [n ->]. by eexists.
Qed.

Lemma match_here_None c rest : match_here (c :: rest) = None → c ≠ char.
Proof.
  intros H ->. destruct (match_here_trigger rest) as [n Hn]. congruence.
Qed.

Lemma match_here_not_trigger c rest : c ≠ char → match_here (c :: rest) = None.
Proof. intros Hc. cbn. by destruct (Z.eqb_spec c char). Qed.

(** What every match looks like: a piece of the input at its index, at
    least one unit long, inside the input, without a line terminator. *)
Lemma match_all_from_shape inp idx skip s m :
  m ∈ match_all_from inp idx skip s →
  (idx ≤ index m)%nat
  ∧ matched m = take (length (matched m)) (drop (index m - idx) s)
  ∧ (1 ≤ length (matched m))%nat
  ∧ (index m - idx + length (matched m) ≤ length s)%nat
  ∧ Forall (λ c, is_line_terminator c = false) (matched m).
Proof.
  revert idx skip. induction s as [|c rest IH]; intros idx skip;
    cbn [match_all_from].
  - intros H. by apply elem_of_nil in H.
  - assert (Hrec : ∀ k, m ∈ match_all_from inp (S idx) k rest →
      (idx ≤ index m)%nat
      ∧ matched m = take (length (matched m)) (drop (index m - idx) (c :: rest))
      ∧ (1 ≤ length (matched m))%nat
      ∧ (index m - idx + length (matched m) ≤ length (c :: rest))%nat
      ∧ Forall (λ c, is_line_terminator c = false) (matched m)).
    { intros k Hk. destruct (IH _ _ Hk) as (Hle & Heq & H1 & Hlen & Hlt).
      replace (index m - idx)%nat with (S (index m - S idx)) by lia.
      cbn [drop length]. repeat split; [lia|done|done|lia|done]. }
    destruct skip as [|k]; [|by apply Hrec].
    destruct (match_here (c :: rest)) as [len|] eqn:Hm; [|by apply Hrec].
    intros [->|Hin]%elem_of_cons; [|by eapply Hrec].
    pose proof Hm as Hm'.
    apply match_here_Some in Hm' as (rest' & k & [= -> ->] & -> & Hk).
    cbn [index matched]. rewrite Nat.sub_diag, drop_0.
    assert (length (take (S k) (char :: rest')) = S k) as Hl
      by (rewrite length_take; cbn [length]; lia).
    rewrite Hl. split_and!.
    + lia.
    + done.
    + lia.
    + cbn [length]. lia.
    + cbn in Hm. destruct (lazy_dots rest') as [k'|] eqn:Hd; [|done].
      injection Hm as <-. cbn. constructor; [done|].
      by apply lazy_dots_no_terminator.
Qed.

(** After the last match no trigger is left; without a match there is none
    past the units already consumed. *)
Lemma match_all_from_rest inp s :
  ∀ idx skip,
    (match_all_from inp idx skip s = [] →
     ∀ i, (skip ≤ i)%nat → s !! i ≠ Some char)
    ∧ (∀ m, last (match_all_from inp idx skip s) = Some m →
       ∀ i, (index m - idx + length (matched m) ≤ i)%nat →
            s !! i ≠ Some char).
Proof.
  induction s as [|c rest IH]; intros idx skip; cbn [match_all_from].
  - split; [by intros _ i _|done].
  - destruct skip as [|k].
    + destruct (match_here (c :: rest)) as [len|] eqn:Hm.
      * split; [done|]. intros m. rewrite last_cons.
        destruct (last (match_all_from inp (S idx) (len - 1) rest))
          as [m'|] eqn:Hlast.
        -- intros [= ->] i Hi.
           assert (m ∈ match_all_from inp (S idx) (len - 1) rest) as Hin.
           { apply list_elem_of_lookup. eexists. by rewrite <- last_lookup. }
           apply match_all_from_shape in Hin as (Hle & _).
           destruct i as [|i]; [lia|]. cbn.
           eapply (proj2 (IH _ _)); [done|lia].
        -- intros [= <-] i. cbn [index matched].
           apply match_here_Some in Hm as (rest' & k & [= -> ->] & -> & Hk).
           rewrite length_take. cbn [length]. intros Hi.
           destruct i as [|i]; [lia|]. cbn.
           apply last_None in Hlast.
           eapply (proj1 (IH _ _)); [done|lia].
      * apply match_here_None in Hm. split.
        -- intros Hnil [|i] _; cbn; [congruence|].
           eapply (proj1 (IH _ _)); [done|lia].
        -- intros m Hlast i Hi.
           assert (m ∈ match_all_from inp (S idx) 0 rest) as Hin.
           { apply list_elem_of_lookup. eexists. by rewrite <- last_lookup. }
           apply match_all_from_shape in Hin as (Hle & _).
           destruct i as [|i]; [lia|]. cbn.
           eapply (proj2 (IH _ _)); [done|lia].
    + split.
      * intros Hnil [|i] Hi; [lia|]. cbn.
        eapply (proj1 (IH _ _)); [done|lia].
      * intros m Hlast i Hi.
        assert (m ∈ match_all_from inp (S idx) k rest) as Hin.
        { apply list_elem_of_lookup. eexists. by rewrite <- last_lookup. }
        apply match_all_from_shape in Hin as (Hle & _).
        destruct i as [|i]; [lia|]. cbn.
        eapply (proj2 (IH _ _)); [done|lia].
Qed.

(** X1. The slice has a candidate span exactly when it holds the trigger
    character: the pattern matches at every trigger it reaches. *)
Theorem candidate_iff_trigger (t : jsstring) :
  is_Some (last (matchAll t)) ↔ char ∈ t.
Proof.
  split.
  - intros [m Hm]. apply matchAll_last in Hm as (_ & _ & Hat).
    by eapply list_elem_of_lookup_2.
  - intros Hin. destruct (last (matchAll t)) as [m|] eqn:Hlast; [by eexists|].
    apply last_None in Hlast.
    apply list_elem_of_lookup in Hin as [i Hi].
    by destruct (proj1 (match_all_from_rest t t 0%nat 0%nat) Hlast i
                   (Nat.le_0_l i)).
Qed.

Lemma slice_range (s : jsstring) (a b : Z) :
  0 <= a → a <= b →
  slice s a (Some b) = take (Z.to_nat (b - a)) (drop (Z.to_nat a) s).
Proof.
  intros Ha Hab. unfold slice, clamp_index.
  destruct (Z.ltb_spec a 0); [lia|]. destruct (Z.ltb_spec b 0); [lia|].
  rewrite Z.geb_leb.
  destruct (Z.leb_spec (Z.min b (Z.of_nat (length s)))
                       (Z.min a (Z.of_nat (length s)))) as [Hle|Hlt].
  - destruct (decide (a = b)) as [->|Hne].
    + by rewrite Z.sub_diag.
    + rewrite drop_ge by lia. by rewrite take_nil.
  - replace (Z.min a (Z.of_nat (length s))) with a by lia.
    destruct (decide (b <= Z.of_nat (length s))) as [Hb|Hb].
    + by replace (Z.min b (Z.of_nat (length s))) with b by lia.
    + replace (Z.min b (Z.of_nat (length s))) with (Z.of_nat (length s))
        by lia.
      rewrite !take_ge; [done|rewrite length_drop; lia..].
Qed.

Lemma suffix_test_two (l : jsstring) :
  suffix_test (take 2 l) = true → l !! 1%nat = Some char.
Proof.
  destruct l as [|w [|a r]]; cbn; try done.
  rewrite take_0. cbn. rewrite orb_false_r, andb_true_r.
  intros [_ Ha%Z.eqb_eq]%andb_prop. by rewrite Ha.
Qed.

Lemma matchAll_last_shape t m :
  last (matchAll t) = Some m →
  matched m = take (length (matched m)) (drop (index m) t)
  ∧ (1 ≤ length (matched m))%nat
  ∧ (index m + length (matched m) ≤ length t)%nat
  ∧ Forall (λ c, is_line_terminator c = false) (matched m)
  ∧ ∀ i, (index m + length (matched m) ≤ i)%nat → t !! i ≠ Some char.
Proof.
  intros Hm. pose proof (last_elem_of _ _ Hm) as Hin.
  apply match_all_from_shape in Hin as (_ & Heq & H1 & Hlen & Hlt).
  rewrite Nat.sub_0_r in Heq, Hlen. split_and!; try done.
  intros i Hi.
  apply (proj2 (match_all_from_rest t t 0%nat 0%nat) m Hm i). lia.
Qed.

(** The branch that widens the match by one unit is never taken when the
    block starts at a non-negative offset. *)
Lemma no_widening t m (st : Z) :
  0 <= st → last (matchAll t) = Some m →
  let to := Z.of_nat (index m) + st + Z.of_nat (length (matched m)) in
  suffix_test (slice t (to - 1) (Some (to + 1))) = false.
Proof.
  intros Hst Hm to.
  destruct (matchAll_last_shape _ _ Hm) as (_ & H1 & _ & _ & Hrest).
  rewrite slice_range by lia.
  replace (Z.to_nat (to + 1 - (to - 1))) with 2%nat by lia.
  destruct (suffix_test _) eqn:E; [|done].
  apply suffix_test_two in E. rewrite lookup_drop in E.
  destruct (Hrest (Z.to_nat (to - 1) + 1)%nat); [lia|done].
Qed.

(** What a returned match is made of, for a block that starts at a
    non-negative offset. *)
Lemma findSuggestionMatch_Some p r :
  0 <= start p → findSuggestionMatch p = Some r →
  ∃ m q,
    last (matchAll (slice_text p)) = Some m
    ∧ matched m = char :: q
    ∧ r = {| Match.range :=
               {| from := Z.of_nat (index m) + start p;
                  to := Z.of_nat (index m) + start p
                        + Z.of_nat (length (matched m)) |};
             Match.query := q;
             Match.text := matched m |}
    ∧ Z.of_nat (index m) + start p < pos p
    ∧ pos p <= Z.of_nat (index m) + start p + Z.of_nat (length (matched m)).
Proof.
  intros Hst. unfold findSuggestionMatch.
  destruct (last _) as [m|] eqn:Hm; [|done].
  destruct (matchAll_last _ _ Hm) as (_ & (q & Hq) & _).
  destruct (negb (_ && _)); [done|].
  destruct (negb (prefix_test _)); [done|].
  rewrite (no_widening _ _ _ Hst Hm).
  destruct (_ && _) eqn:Hin; [|done].
  apply andb_prop in Hin as [H1 H2].
  intros [= <-]. exists m, q. rewrite Hq at 3. rewrite slice_tail.
  split_and!; [done|done|done|lia|lia].
Qed.

(** X2. With a block that starts at a non-negative offset, the text of a
    returned match is the piece of the slice that starts at the trigger at
    index [from - start] and is as long as the range: the branch that
    appends a space never applies. *)
Theorem match_text_is_slice_text p r :
  0 <= start p → findSuggestionMatch p = Some r →
  ∃ i : nat,
    from (Match.range r) = Z.of_nat i + start p
    ∧ to (Match.range r) = from (Match.range r)
                           + Z.of_nat (length (Match.text r))
    ∧ slice_text p !! i = Some char
    ∧ Match.text r = take (length (Match.text r)) (drop i (slice_text p))
    ∧ (i + length (Match.text r) ≤ length (slice_text p))%nat.
Proof.
  intros Hst Hr.
  destruct (findSuggestionMatch_Some _ _ Hst Hr) as (m & q & Hm & _ & -> & _).
  destruct (matchAll_last _ _ Hm) as (_ & _ & Hat).
  destruct (matchAll_last_shape _ _ Hm) as (Heq & _ & Hlen & _ & _).
  exists (index m). cbn. done.
Qed.

Lemma match_text_is_slice_text_witness :
  ∃ i : nat,
    7 = Z.of_nat i + 1
    ∧ 11 = 7 + 4
    ∧ of_string "hello @bob" !! i = Some char
    ∧ of_string "@bob" = take 4 (drop i (of_string "hello @bob"))
    ∧ (i + 4 ≤ 10)%nat.
Proof.
  apply (match_text_is_slice_text
           (cursor_in_block (of_string "hello @bob ") 1 10) _
           ltac:(cbn; lia) eq_refl).
Defined.

(** X3. When the cursor is at the end of the slice, a returned match ends
    at the cursor and its text is the whole slice from its trigger on: the
    query is everything between the trigger and the cursor. *)
Theorem match_runs_to_cursor p r :
  0 <= start p →
  pos p = start p + Z.of_nat (length (slice_text p)) →
  findSuggestionMatch p = Some r →
  to (Match.range r) = pos p
  ∧ Match.text r
    = drop (Z.to_nat (from (Match.range r) - start p)) (slice_text p)
  ∧ char :: Match.query r = Match.text r.
Proof.
  intros Hst Hpos Hr.
  destruct (findSuggestionMatch_Some _ _ Hst Hr)
    as (m & q & Hm & Hq & -> & Hlo & Hhi).
  destruct (matchAll_last_shape _ _ Hm) as (Heq & _ & Hlen & _ & _).
  cbn. split; [lia|]. split; [|done].
  replace (Z.to_nat (Z.of_nat (index m) + start p - start p))
    with (index m) by lia.
  rewrite Heq at 1. apply take_ge. rewrite length_drop. lia.
Qed.

Lemma match_runs_to_cursor_witness :
  11 = 11
  ∧ of_string "@bob" = drop (Z.to_nat (7 - 1)) (of_string "hello @bob")
  ∧ char :: of_string "bob" = of_string "@bob".
Proof.
  apply (match_runs_to_cursor
           (cursor_in_block (of_string "hello @bob ") 1 10) _
           ltac:(cbn; lia) eq_refl eq_refl).
Defined.

(** X4. The text of a returned match, and so its query, holds no line
    terminator: a session never reaches across a line break. *)
Theorem match_text_has_no_line_break p r :
  findSuggestionMatch p = Some r →
  Forall (λ c, is_line_terminator c = false) (Match.text r)
  ∧ Forall (λ c, is_line_terminator c = false) (Match.query r).
Proof.
  unfold findSuggestionMatch.
  destruct (last _) as [m|] eqn:Hm; [|done].
  destruct (matchAll_last _ _ Hm) as (_ & (q & Hq) & _).
  destruct (matchAll_last_shape _ _ Hm) as (_ & _ & _ & Hlt & _).
  destruct (negb (_ && _)); [done|].
  destruct (negb (prefix_test _)); [done|].
  destruct (_ && _); [|done].
  intros [= <-]. cbn.
  assert (Forall (λ c, is_line_terminator c = false)
            (if suffix_test
                  (slice (slice_text p)
                     (Z.of_nat (index m) + start p
                      + Z.of_nat (length (matched m)) - 1)
                     (Some (Z.of_nat (index m) + start p
                            + Z.of_nat (length (matched m)) + 1)))
             then matched m ++ [32] else matched m)) as Hall.
  { destruct (suffix_test _); [|done].
    apply Forall_app. split; [done|]. by constructor. }
  split; [done|].
  destruct (suffix_test _); rewrite Hq in Hall |- *; cbn [app];
    rewrite slice_tail; by apply Forall_cons_1 in Hall as [_ ?].
Qed.

Lemma match_text_has_no_line_break_witness :
  Forall (λ c, is_line_terminator c = false) (of_string "@bob")
  ∧ Forall (λ c, is_line_terminator c = false) (of_string "bob").
Proof.
  apply (match_text_has_no_line_break
           (cursor_in_block (of_string "hello @bob ") 1 10) _ eq_refl).
Defined.

(** ** The scanner, continued *)

Lemma split_app_sep sep (pre tl : jsstring) :
  sep ∉ pre → split sep (pre ++ sep :: tl) = pre :: split sep tl.
Proof.
  induction pre as [|c pre IH]; intros Hpre; cbn.
  - by rewrite Z.eqb_refl.
  - apply not_elem_of_cons in Hpre as [Hc Hpre].
    destruct (Z.eqb_spec c sep); [congruence|]. by rewrite IH.
Qed.

Lemma split_no_sep sep (s : jsstring) : sep ∉ s → split sep s = [s].
Proof.
  induction s as [|c s IH]; intros Hs; [done|]. cbn.
  apply not_elem_of_cons in Hs as [Hc Hs].
  destruct (Z.eqb_spec c sep); [congruence|]. by rewrite IH.
Qed.

(** [text.split(char)[1]] is the segment between the first trigger and the
    next one, or the end. *)
Lemma textAfter_first_segment (pre seg rest : jsstring) :
  char ∉ pre → char ∉ seg →
  (∀ c, head rest = Some c → c = char) →
  split char (pre ++ char :: seg ++ rest) !! 1%nat = Some seg.
Proof.
  intros Hpre Hseg Hrest. rewrite split_app_sep by done. cbn.
  destruct rest as [|c rest].
  - by rewrite app_nil_r, split_no_sep.
  - rewrite (Hrest c eq_refl), split_app_sep by done. done.
Qed.

Lemma allowedChars_test_false (s : jsstring) :
  Exists (λ c, allowed_class c = false) s → allowedChars_test s = false.
Proof.
  unfold allowedChars_test. induction 1 as [c s Hc|c s _ IH]; cbn.
  - by rewrite Hc.
  - rewrite IH. apply andb_false_r.
Qed.

(** X5. The character check looks at the segment after the first trigger
    of the slice, whichever trigger the cursor is in: when that segment
    holds a unit outside the allowed class, or begins with a comma or with
    white space, the scanner returns no match. *)
Theorem first_segment_gates_every_match p (pre seg rest : jsstring) :
  slice_text p = pre ++ char :: seg ++ rest →
  char ∉ pre → char ∉ seg →
  (∀ c, head rest = Some c → c = char) →
  Exists (λ c, allowed_class c = false) seg
  ∨ disallowedStartsWithChars_test seg = true →
  findSuggestionMatch p = None.
Proof.
  intros Htext Hpre Hseg Hrest Hbad. unfold findSuggestionMatch.
  rewrite Htext, textAfter_first_segment by done. cbn [to_string].
  destruct (last _); [|done].
  destruct Hbad as [Hbad|Hbad].
  - by rewrite (allowedChars_test_false _ Hbad).
  - rewrite Hbad. cbn. by rewrite andb_false_r.
Qed.

Lemma first_segment_gates_every_match_witness :
  findSuggestionMatch (cursor_in_block (of_string "@a! @bob") 1 8) = None.
Proof.
  apply (first_segment_gates_every_match _ [] (of_string "a! ")
           (of_string "@bob")); [reflexivity| | | |].
  - apply not_elem_of_nil.
  - intros H. repeat (apply elem_of_cons in H as [H|H]; [discriminate H|]).
    by apply elem_of_nil in H.
  - by intros c [= <-].
  - left. apply Exists_cons_tl, Exists_cons_hd. reflexivity.
Defined.

Lemma match_all_from_skip_prefix inp idx (pre s : jsstring) :
  char ∉ pre →
  match_all_from inp idx 0 (pre ++ s)
  = match_all_from inp (idx + length pre) 0 s.
Proof.
  revert idx. induction pre as [|c pre IH]; intros idx Hpre.
  - cbn. by rewrite Nat.add_0_r.
  - apply not_elem_of_cons in Hpre as [Hc Hpre].
    cbn [app match_all_from]. rewrite match_here_not_trigger by done.
    rewrite IH by done. f_equal. cbn [length]. lia.
Qed.

Lemma match_all_from_skip_all inp idx skip (s : jsstring) :
  (length s ≤ skip)%nat → match_all_from inp idx skip s = [].
Proof.
  revert idx skip. induction s as [|c s IH]; intros idx skip Hlen; [done|].
  cbn [length] in Hlen. destruct skip as [|k]; [lia|].
  cbn [match_all_from]. apply IH. lia.
Qed.

Lemma lazy_dots_all (q : jsstring) :
  char ∉ q → Forall (λ c, is_line_terminator c = false) q →
  lazy_dots q = Some (length q).
Proof.
  induction q as [|c q IH]; intros Hq Hlt; [done|].
  apply not_elem_of_cons in Hq as [Hc Hq].
  apply Forall_cons_1 in Hlt as [Hc' Hlt].
  rewrite lazy_dots_unfold.
  assert (lookahead (c :: q) = false) as ->.
  { cbn. rewrite Hc', orb_false_r. apply andb_false_intro2.
    destruct q as [|a q]; [done|].
    apply not_elem_of_cons in Hq as [Ha _]. by destruct (Z.eqb_spec a char). }
  by rewrite Hc', IH.
Qed.

Lemma matchAll_single (pre q : jsstring) :
  char ∉ pre → char ∉ q →
  Forall (λ c, is_line_terminator c = false) q →
  matchAll (pre ++ char :: q)
  = [{| index := length pre; matched := char :: q;
        input := pre ++ char :: q |}].
Proof.
  intros Hpre Hq Hlt. unfold matchAll.
  rewrite match_all_from_skip_prefix by done.
  cbn [match_all_from match_here]. rewrite Z.eqb_refl, lazy_dots_all by done.
  cbn [fmap option_fmap option_map]. rewrite match_all_from_skip_all by lia.
  cbn. by rewrite take_ge.
Qed.


(** X6. A freestanding trigger is detected: when the slice ends at the
    cursor, holds one trigger that starts it or follows a white space or
    NUL unit, and the units typed after the trigger are in the allowed
    class, without a line terminator and without a leading comma or white
    space, the scanner returns the span from the trigger to the cursor,
    with those units as the query. *)
Theorem freestanding_trigger_detected p (pre q : jsstring) :
  0 <= start p →
  pos p = start p + Z.of_nat (length (slice_text p)) →
  slice_text p = pre ++ char :: q →
  char ∉ pre → char ∉ q →
  (∀ w, last pre = Some w → is_white_space w = true ∨ w = 0) →
  Forall (λ c, allowed_class c = true ∧ is_line_terminator c = false) q →
  disallowedStartsWithChars_test q = false →
  findSuggestionMatch p
  = Some {| Match.range :=
              {| from := start p + Z.of_nat (length pre); to := pos p |};
            Match.query := q;
            Match.text := char :: q |}.
Proof.
  intros Hst Hpos Htext Hpre Hq Hlast Hall Hdis.
  assert (Forall (λ c, is_line_terminator c = false) q) as Hlt
    by (eapply Forall_impl; [done|]; by intros c [_ ?]).
  assert (allowedChars_test q = true) as Hallowed.
  { unfold allowedChars_test. apply forallb_forall. intros c Hc.
    rewrite Forall_forall in Hall. apply Hall. by apply list_elem_of_In. }
  pose proof (matchAll_single pre q Hpre Hq Hlt) as Hmatch.
  assert (last (matchAll (pre ++ char :: q))
          = Some {| index := length pre; matched := char :: q;
                    input := pre ++ char :: q |}) as Hm
    by (by rewrite Hmatch).
  pose proof (no_widening _ _ _ Hst Hm) as Hwiden.
  cbv zeta in Hwiden. cbn [index matched] in Hwiden.
  assert (split char (pre ++ char :: q) !! 1%nat = Some q) as Hafter.
  { pose proof (textAfter_first_segment pre q [] Hpre Hq) as H.
    rewrite app_nil_r in H. by apply H. }
  assert (length (slice_text p) = (length pre + S (length q))%nat) as Hlen
    by (rewrite Htext, length_app; done).
  unfold findSuggestionMatch. rewrite Htext, Hm, Hafter. cbn [to_string].
  rewrite Hallowed, Hdis. cbn [negb andb index matched input].
  assert (prefix_test
            (slice (pre ++ char :: q) (Z.max 0 (Z.of_nat (length pre) - 1))
                   (Some (Z.of_nat (length pre)))) = true) as ->.
  { destruct (last pre) as [w|] eqn:Hw.
    - assert (0 < length pre)%nat as Hpos'
        by (destruct pre; [done|cbn; lia]).
      rewrite (slice_before _ _ w); [|done|].
      + cbn. destruct (Hlast w eq_refl) as [->| ->]; [done|].
        by rewrite orb_true_r.
      + rewrite lookup_app_l by lia.
        rewrite last_lookup in Hw.
        by replace (length pre - 1)%nat with (pred (length pre)) by lia.
    - apply last_None in Hw as ->. done. }
  cbn [negb]. rewrite Hwiden.
  rewrite slice_tail.
  cbn [length].
  destruct (Z.ltb_spec (Z.of_nat (length pre) + start p) (pos p)); [|lia].
  rewrite Z.geb_leb.
  destruct (Z.leb_spec (pos p)
              (Z.of_nat (length pre) + start p + Z.of_nat (S (length q))));
    [|lia].
  cbn. do 3 f_equal; lia.
Qed.

Lemma freestanding_trigger_detected_witness :
  findSuggestionMatch (cursor_in_block (of_string "hello @bob ") 1 10)
  = Some {| Match.range := {| from := 1 + 6; to := 11 |};
            Match.query := of_string "bob";
            Match.text := char :: of_string "bob" |}.
Proof.
  apply (freestanding_trigger_detected
           (cursor_in_block (of_string "hello @bob ") 1 10)
           (of_string "hello ") (of_string "bob"));
    [cbn; lia | reflexivity | reflexivity | | | | |reflexivity].
  - intros H. repeat (apply elem_of_cons in H as [H|H]; [discriminate H|]).
    by apply elem_of_nil in H.
  - intros H. repeat (apply elem_of_cons in H as [H|H]; [discriminate H|]).
    by apply elem_of_nil in H.
  - intros w [= <-]. by left.
  - repeat constructor.
Defined.

(** X7. With the cursor at the end of the slice, a line terminator after
    the last trigger ends the match: the scanner returns no match. *)
Theorem line_break_ends_match p (a b : jsstring) (lt : Z) :
  0 <= start p →
  pos p = start p + Z.of_nat (length (slice_text p)) →
  slice_text p = a ++ lt :: b →
  is_line_terminator lt = true → char ∉ b →
  findSuggestionMatch p = None.
Proof.
  intros Hst Hpos Htext Hlt Hb.
  destruct (findSuggestionMatch p) as [r|] eqn:Hr; [|done]. exfalso.
  destruct (findSuggestionMatch_Some _ _ Hst Hr)
    as (m & q & Hm & _ & _ & _ & Hhi).
  destruct (matchAll_last _ _ Hm) as (_ & _ & Hat).
  destruct (matchAll_last_shape _ _ Hm) as (Heq & _ & Hlen & Hall & _).
  assert (matched m = drop (index m) (slice_text p)) as Htxt.
  { rewrite Heq at 1. apply take_ge. rewrite length_drop. lia. }
  assert (index m < length a)%nat as Hi.
  { destruct (decide (index m < length a)%nat) as [|Hge]; [done|]. exfalso.
    rewrite Htext in Hat. rewrite lookup_app_r in Hat by lia.
    destruct (index m - length a)%nat as [|k] eqn:Hk; cbn in Hat.
    - injection Hat as ->. discriminate Hlt.
    - apply Hb. by eapply list_elem_of_lookup_2. }
  rewrite Htxt, Htext, drop_app_le in Hall by lia.
  apply Forall_app in Hall as [_ Hall].
  apply Forall_cons_1 in Hall as [Hbad _]. congruence.
Qed.

Lemma line_break_ends_match_witness :
  findSuggestionMatch
    (cursor_in_block (of_string "@bo" ++ 10 :: of_string "x") 1 5) = None.
Proof.
  apply (line_break_ends_match _ (of_string "@bo") (of_string "x") 10);
    [cbn; lia | reflexivity | reflexivity | reflexivity |].
  intros H. repeat (apply elem_of_cons in H as [H|H]; [discriminate H|]).
  by apply elem_of_nil in H.
Defined.

(** ** The state machine, continued *)

(** X8. The new state is computed from the transaction alone: apart from
    [decorationId], nothing of the previous state reaches it, and the
    store grows by the same object. *)
Theorem apply_forgets_previous_state env tr (prev1 prev2 : State.t) h :
  (apply env tr prev1 h).2 = (apply env tr prev2 h).2
  ∧ State.active (apply env tr prev1 h).1
    = State.active (apply env tr prev2 h).1
  ∧ State.range (apply env tr prev1 h).1
    = State.range (apply env tr prev2 h).1
  ∧ State.query (apply env tr prev1 h).1
    = State.query (apply env tr prev2 h).1
  ∧ State.text (apply env tr prev1 h).1 = State.text (apply env tr prev2 h).1.
Proof.
  unfold apply, apply_with.
  destruct (empty (selection tr) || composing env); [|done].
  destruct (findSuggestionMatch _) as [m|]; [|done].
  destruct (allow env) as [f|]; [|done].
  by destruct (f (Match.range m)).
Qed.

(** X9. A veto is a missing match: when [options.allow] is not set, or
    rejects the range of the match, [apply] returns the inactive state. *)
Theorem veto_is_no_match env tr prev h :
  (∀ f m, allow env = Some f →
          findSuggestionMatch (resolved_from (selection tr)) = Some m →
          f (Match.range m) = false) →
  apply env tr prev h = inactive h.
Proof.
  intros Hveto.
  destruct (apply_with_cases findSuggestionMatch env tr prev h)
    as [?|(m & f & _ & Hscan & Hallow & Hf & _)]; [done|].
  rewrite (Hveto _ _ Hallow Hscan) in Hf. discriminate Hf.
Qed.

Lemma veto_is_no_match_witness :
  apply {| composing := false; allow := None; random := 7 |}
        (transaction (cursor_step (permissive false 7) "@bo" 3 true))
        (init []).1 (init []).2
  = inactive (init []).2.
Proof.
  apply veto_is_no_match. intros f m Hf. discriminate Hf.
Defined.

Lemma match_span_and_text p m :
  findSuggestionMatch p = Some m →
  to (Match.range m) - from (Match.range m)
  = Z.of_nat (length (Match.text m))
  ∧ ∃ q, Match.text m = char :: q ∧ Match.query m = q.
Proof.
  unfold findSuggestionMatch.
  destruct (last _) as [rm|] eqn:Hm; [|done].
  destruct (matchAll_last _ _ Hm) as (_ & (q & Hq) & _).
  destruct (negb (_ && _)); [done|].
  destruct (negb (prefix_test _)); [done|].
  destruct (_ && _); [|done].
  intros [= <-]. cbn. rewrite Hq.
  destruct (suffix_test _); cbn [app]; rewrite slice_tail;
    (split; [cbn [length]; rewrite ?length_app; cbn [length]; lia|eauto]).
Qed.

(** X10. The marker and its selector agree. [decorations] gives no marker
    exactly for an inactive state. For an active state that [apply]
    returns it gives one inline marker, over a span that is not empty and
    as long as the matched text, tagged with the state's identifier; and
    [props.decorationId()] returns the selector made of that same
    identifier. *)
Theorem decoration_matches_selector env tr prev h :
  let next := (apply env tr prev h).1 in
  let h' := (apply env tr prev h).2 in
  (decorations h' next = None ↔ State.active next = false)
  ∧ (State.active next = true →
     ∃ f t id txt,
       decorations h' next
       = Some [ {| Decoration.from := Some f; Decoration.to := Some t;
                   Decoration.nodeName := of_string "span";
                   Decoration.data_decoration_id := Some id |} ]
       ∧ f < t
       ∧ State.text next = Some txt ∧ t - f = Z.of_nat (length txt)
       ∧ decorationId_selector next
         = Some (of_string "[data-decoration-id=" ++ [34] ++ id ++ [34]
                 ++ of_string "]")).
Proof.
  cbv zeta. unfold apply.
  destruct (apply_with_cases findSuggestionMatch env tr prev h)
    as [->|(m & f & _ & Hscan & _ & _ & ->)]; cbn [fst snd].
  - split; [done|]. cbn. done.
  - split; [cbn; split; done|]. intros _.
    destruct (scanner_cursor_in_span _ _ Hscan) as [Hlo Hhi].
    destruct (match_span_and_text _ _ Hscan) as [Hspan _].
    unfold decorations, decorationId_selector, range_from, range_to.
    cbn [State.active State.range State.decorationId State.text negb].
    rewrite deref_alloc. cbn [fmap option_fmap option_map].
    destruct (truthy (State.decorationId prev)) eqn:Htr.
    + destruct (State.decorationId prev) as [id|] eqn:Hid; [|done].
      exists (from (Match.range m)), (to (Match.range m)), id, (Match.text m).
      rewrite Htr. split_and!; [done|lia|done|done|done].
    + exists (from (Match.range m)), (to (Match.range m)),
        (fresh_id (random env)), (Match.text m).
      rewrite fresh_id_truthy. split_and!; [done|lia|done|done|done].
Qed.

Lemma decoration_matches_selector_witness :
  ∃ f t id txt,
    decorations typed_bo.2 typed_bo.1
    = Some [ {| Decoration.from := Some f; Decoration.to := Some t;
                Decoration.nodeName := of_string "span";
                Decoration.data_decoration_id := Some id |} ]
    ∧ f < t
    ∧ State.text typed_bo.1 = Some txt ∧ t - f = Z.of_nat (length txt)
    ∧ decorationId_selector typed_bo.1
      = Some (of_string "[data-decoration-id=" ++ [34] ++ id ++ [34]
              ++ of_string "]").
Proof.
  apply (proj2 (decoration_matches_selector (permissive false 7)
           (transaction (cursor_step (permissive false 7) "@bo" 3 true))
           (init []).1 (init []).2)).
  reflexivity.
Defined.

(** X11. The selector names one identifier: two states with the same
    selector carry the same identifier. *)
Theorem selector_determines_id (s1 s2 : State.t) sel :
  decorationId_selector s1 = Some sel →
  decorationId_selector s2 = Some sel →
  State.decorationId s1 = State.decorationId s2.
Proof.
  unfold decorationId_selector.
  destruct (State.decorationId s1) as [id1|]; [|done].
  destruct (State.decorationId s2) as [id2|]; [|done].
  destruct (truthy (Some id1)); [|done].
  destruct (truthy (Some id2)); [|done].
  intros [= <-] [= H]. f_equal. symmetry. by apply app_inv_tail in H.
Qed.

Lemma selector_determines_id_witness :
  State.decorationId (session_at 0 "a") = State.decorationId (session_at 1 "b").
Proof.
  by apply (selector_determines_id (session_at 0 "a") (session_at 1 "b")
              _ eq_refl).
Defined.

(** ** The view, continued *)

Lemma moved_same_from h prev next :
  range_from h (State.range prev) = range_from h (State.range next) →
  moved h prev next = false.
Proof.
  intros H. unfold moved. rewrite H, (bool_decide_eq_true_2 _ eq_refl).
  cbn. apply andb_false_r.
Qed.

Lemma update_table renderer h prev next :
  (State.active prev = false → State.active next = true →
   update renderer h prev next = invoke renderer onStart (props_of next))
  ∧ (State.active prev = true → State.active next = false →
     update renderer h prev next = invoke renderer onExit (props_of prev))
  ∧ (State.active prev = true → State.active next = true →
     range_from h (State.range prev) = range_from h (State.range next) →
     State.query prev ≠ State.query next →
     update renderer h prev next = invoke renderer onUpdate (props_of next))
  ∧ (State.active prev = State.active next →
     range_from h (State.range prev) = range_from h (State.range next) →
     State.query prev = State.query next →
     update renderer h prev next = []).
Proof.
  split_and!.
  - intros Hp Hn. unfold update, moved. rewrite Hp, Hn. cbn.
    by destruct (invoke renderer onStart _).
  - intros Hp Hn. unfold update, moved. rewrite Hp, Hn. cbn.
    by rewrite app_nil_r.
  - intros Hp Hn Hfrom Hq. unfold update.
    rewrite (moved_same_from _ _ _ Hfrom), Hp, Hn. cbn.
    rewrite (bool_decide_eq_false_2 _ Hq). cbn. by rewrite app_nil_r.
  - intros Hact Hfrom Hq. unfold update.
    rewrite (moved_same_from _ _ _ Hfrom), Hact, Hq.
    rewrite (bool_decide_eq_true_2 _ eq_refl).
    by destruct (State.active next).
Qed.

(** X12. What [update] calls for the transitions other than [moved], each
    call only if the bundle defines the hook: [onStart] with the new state
    when a session starts; [onExit] with the old state when it stops;
    [onUpdate] with the new state when the query changes at the same start
    offset; nothing when an active session keeps its start offset and
    query, or when both states are inactive with the same query. *)
Theorem update_by_transition renderer h prev next :
  (State.active prev = false → State.active next = true →
   update renderer h prev next = invoke renderer onStart (props_of next))
  ∧ (State.active prev = true → State.active next = false →
     update renderer h prev next = invoke renderer onExit (props_of prev))
  ∧ (State.active prev = true → State.active next = true →
     range_from h (State.range prev) = range_from h (State.range next) →
     State.query prev ≠ State.query next →
     update renderer h prev next = invoke renderer onUpdate (props_of next))
  ∧ (State.active prev = State.active next →
     range_from h (State.range prev) = range_from h (State.range next) →
     State.query prev = State.query next →
     update renderer h prev next = []).
Proof.
  split_and!.
  - intros Hp Hn. unfold update, moved. rewrite Hp, Hn. cbn.
    by destruct (invoke renderer onStart _).
  - intros Hp Hn. unfold update, moved. rewrite Hp, Hn. cbn.
    by rewrite app_nil_r.
  - intros Hp Hn Hfrom Hq. unfold update.
    rewrite (moved_same_from _ _ _ Hfrom), Hp, Hn. cbn.
    rewrite (bool_decide_eq_false_2 _ Hq). cbn. by rewrite app_nil_r.
  - intros Hact Hfrom Hq. unfold update.
    rewrite (moved_same_from _ _ _ Hfrom), Hact, Hq.
    rewrite (bool_decide_eq_true_2 _ eq_refl).
    by destruct (State.active next).
Qed.

Lemma update_by_transition_witness :
  update (Some all_hooks) two_spans (session_at 1 "bo") (init []).1
  = [(onExit, props_of (session_at 1 "bo"))].
Proof.
  apply (proj1 (proj2 (update_by_transition (Some all_hooks) two_spans
                         (session_at 1 "bo") (init []).1))); reflexivity.
Defined.

(** X13. One update calls at most two hooks, all with the same props,
    built from the previous or from the new state: it calls nothing, one
    hook, or [onExit] and then [onStart]; [onUpdate] is never called
    together with another hook. *)
Theorem update_calls_shape h prev next :
  ∃ p, (p = props_of prev ∨ p = props_of next)
       ∧ (update (Some all_hooks) h prev next = []
          ∨ update (Some all_hooks) h prev next = [(onExit, p)]
          ∨ update (Some all_hooks) h prev next = [(onUpdate, p)]
          ∨ update (Some all_hooks) h prev next = [(onStart, p)]
          ∨ update (Some all_hooks) h prev next
            = [(onExit, p); (onStart, p)]).
Proof.
  unfold update.
  destruct (moved h prev next) eqn:Hm.
  { destruct (moved_active _ _ _ Hm) as [-> ->]. cbn.
    rewrite andb_false_r. cbn. exists (props_of next). eauto 10. }
  destruct (State.active prev), (State.active next); cbn.
  - destruct (bool_decide _); cbn; exists (props_of next); eauto 10.
  - exists (props_of prev). eauto 10.
  - exists (props_of next). eauto 10.
  - destruct (bool_decide _); cbn; exists (props_of next); eauto 10.
Qed.

Lemma count_hook_app hk (l1 l2 : list (Hook * Props.t)) :
  count_hook hk (l1 ++ l2) = (count_hook hk l1 + count_hook hk l2)%nat.
Proof. unfold count_hook. by rewrite List.filter_app, length_app. Qed.

Lemma update_balance h prev next :
  (count_hook onStart (update (Some all_hooks) h prev next)
   + one_if (State.active prev)
   = count_hook onExit (update (Some all_hooks) h prev next)
     + one_if (State.active next))%nat.
Proof.
  unfold update.
  destruct (moved h prev next) eqn:Hm.
  { destruct (moved_active _ _ _ Hm) as [-> ->]. cbn.
    by rewrite andb_false_r. }
  destruct (State.active prev), (State.active next); cbn;
    try destruct (bool_decide _); done.
Qed.

Lemma run_view_cons renderer st rest prev h :
  run_view renderer (st :: rest) prev h
  = update renderer (apply (env st) (transaction st) prev h).2 prev
           (apply (env st) (transaction st) prev h).1
    ++ run_view renderer rest (apply (env st) (transaction st) prev h).1
                (apply (env st) (transaction st) prev h).2.
Proof. cbn [run_view]. by destruct (apply _ _ _ _). Qed.

Lemma final_state_cons st rest prev h :
  final_state (st :: rest) prev h
  = final_state rest (apply (env st) (transaction st) prev h).1
                (apply (env st) (transaction st) prev h).2.
Proof.
  unfold final_state. rewrite run_cons, last_cons.
  by destruct (last _).
Qed.

(** X14. Starts and exits balance over any sequence of transactions: the
    number of [onStart] calls, plus one if the first state was active, is
    the number of [onExit] calls, plus one if the last state is active.
    From the initial state there is one more start than exits while a
    session is active, and as many otherwise. *)
Theorem starts_and_exits_balance steps prev h :
  (count_hook onStart (run_view (Some all_hooks) steps prev h)
   + one_if (State.active prev)
   = count_hook onExit (run_view (Some all_hooks) steps prev h)
     + one_if (State.active (final_state steps prev h)))%nat.
Proof.
  revert prev h. induction steps as [|st rest IH]; intros prev h; [done|].
  rewrite run_view_cons, final_state_cons, !count_hook_app.
  pose proof (update_balance
                (apply (env st) (transaction st) prev h).2 prev
                (apply (env st) (transaction st) prev h).1) as Hstep.
  specialize (IH (apply (env st) (transaction st) prev h).1
                 (apply (env st) (transaction st) prev h).2).
  lia.
Qed.

(** X15. From a state that is inactive with a [null] query, as the initial
    state is, the first hook a sequence of transactions calls is
    [onStart]: no exit and no update comes before a start. *)
Theorem first_hook_is_onStart steps prev h :
  State.active prev = false → State.query prev = None →
  head (run_view (Some all_hooks) steps prev h).*1 = None
  ∨ head (run_view (Some all_hooks) steps prev h).*1 = Some onStart.
Proof.
  revert prev h. induction steps as [|st rest IH]; intros prev h Hact Hq;
    [by left|].
  rewrite run_view_cons.
  set (next := (apply (env st) (transaction st) prev h).1).
  set (h1 := (apply (env st) (transaction st) prev h).2).
  destruct (State.active next) eqn:Hn.
  - right.
    rewrite (proj1 (update_table (Some all_hooks) h1 prev next))
      by done. done.
  - assert (update (Some all_hooks) h1 prev next = []) as ->.
    { unfold update, moved. rewrite Hact, Hn, Hq.
      unfold next. rewrite apply_inactive_query by done. done. }
    apply IH; [done|]. by apply apply_inactive_query.
Qed.

Lemma first_hook_is_onStart_witness :
  head (run_view (Some all_hooks)
          [cursor_step (permissive false 7) "@b" 0 true;
           cursor_step (permissive false 7) "@b" 2 true]
          (init []).1 (init []).2).*1 = None
  ∨ head (run_view (Some all_hooks)
            [cursor_step (permissive false 7) "@b" 0 true;
             cursor_step (permissive false 7) "@b" 2 true]
            (init []).1 (init []).2).*1 = Some onStart.
Proof. apply first_hook_is_onStart; reflexivity. Defined.

(** X16. Key presses reach the hook only while a session is active. For an
    inactive state [handleKeyDown] returns false whatever the hook is;
    for an active state it returns the hook's answer, and false without a
    hook; so after a transaction with a ranged selection and no
    composition in progress no key press is consumed. *)
Theorem keys_only_while_active {Event : Type}
    (onKeyDown : option (Event → nat → bool)) (event : Event) :
  (∀ state, State.active state = false →
            handleKeyDown onKeyDown state event = false)
  ∧ (∀ state hook, State.active state = true → onKeyDown = Some hook →
       handleKeyDown onKeyDown state event = hook event (State.range state))
  ∧ (∀ state, onKeyDown = None → handleKeyDown onKeyDown state event = false)
  ∧ (∀ env tr prev h,
       empty (selection tr) = false → composing env = false →
       handleKeyDown onKeyDown (apply env tr prev h).1 event = false).
Proof.
  split_and!.
  - intros state Hs. unfold handleKeyDown. by rewrite Hs.
  - intros state hook Hs ->. unfold handleKeyDown. rewrite Hs. cbn.
    apply orb_false_r.
  - intros state ->. unfold handleKeyDown. by destruct (State.active state).
  - intros env tr prev h He Hc. unfold handleKeyDown, apply, apply_with.
    by rewrite He, Hc.
Qed.

Lemma keys_only_while_active_witness :
  handleKeyDown (Some (λ (_ : unit) _, true)) (init []).1 () = false.
Proof.
  by apply (proj1 (keys_only_while_active
                     (Some (λ (_ : unit) _, true)) ())).
Defined.

(** X17. A click is consumed exactly when it is a direct click on a
    mention node, whether or not a click handler is configured; the
    handler, if configured, is called exactly then, once, with the node's
    attributes. *)
Theorem click_on_mention handler_defined node_type_name node_attrs isDirect :
  ((handleClickOn handler_defined node_type_name node_attrs isDirect).1 = true
   ↔ node_type_name = name ∧ isDirect = true)
  ∧ (handleClickOn handler_defined node_type_name node_attrs isDirect).2
    = if (handleClickOn handler_defined node_type_name node_attrs isDirect).1
         && handler_defined
      then [node_attrs] else [].
Proof.
  unfold handleClickOn.
  destruct (decide (node_type_name = name)) as [->|Hne].
  - rewrite (bool_decide_eq_true_2 _ eq_refl).
    destruct isDirect, handler_defined; cbn; (split; [|done]);
      split; try done; by intros [_ ?].
  - rewrite (bool_decide_eq_false_2 _ Hne). cbn.
    split; [|done]. split; [done|]. by intros [? _].
Qed.

(** ** The commit command, continued *)

(** X18. The command is not idempotent: each call made while a space
    follows the selection moves the end of the same range object again, so
    the second of two calls asks for a span that is longer by one unit for
    each of the two calls that saw a space. *)
Theorem command_twice_extends_twice state n1 n2 a1 a2 h r requests1 h1 :
  deref h (State.range state) = Some r →
  command state n1 a1 h = Some (requests1, h1) →
  ∃ h2,
    command state n2 a2 h1
    = Some ([Focus;
             InsertContentAt
               {| from := from r;
                  to := to r + (if starts_with_space n1 then 1 else 0)
                        + (if starts_with_space n2 then 1 else 0) |}
               [MentionSpec a2; TextSpec [32]]], h2)
    ∧ range_to h2 (State.range state)
      = Some (to r + (if starts_with_space n1 then 1 else 0)
              + (if starts_with_space n2 then 1 else 0)).
Proof.
  intros Hr H1. rewrite (command_result _ _ _ _ _ Hr) in H1.
  injection H1 as _ <-.
  set (r1 := {| from := from r;
                to := if starts_with_space n1 then to r + 1 else to r |}).
  assert (deref (if starts_with_space n1
                 then <[State.range state := Some r1]> h else h)
                (State.range state) = Some r1) as Hr1.
  { destruct (starts_with_space n1) eqn:E.
    - by erewrite deref_insert.
    - rewrite Hr. subst r1. by destruct r. }
  rewrite (command_result _ _ _ _ _ Hr1). eexists. split.
  - subst r1. cbn [from to].
    replace (if starts_with_space n2
             then (if starts_with_space n1 then to r + 1 else to r) + 1
             else if starts_with_space n1 then to r + 1 else to r)
      with (to r + (if starts_with_space n1 then 1 else 0)
            + (if starts_with_space n2 then 1 else 0)); [done|].
    destruct (starts_with_space n1), (starts_with_space n2); lia.
  - unfold range_to. subst r1.
    destruct (starts_with_space n2) eqn:E2.
    + erewrite deref_insert by done. cbn.
      destruct (starts_with_space n1); f_equal; lia.
    + rewrite Hr1. cbn.
      destruct (starts_with_space n1); f_equal; lia.
Qed.

Lemma command_twice_extends_twice_witness :
  ∃ h2,
    command (session_at 0 "bo") (Some (TextNode (of_string " y"))) []
            [Some {| from := 0; to := 4 |}]
    = Some ([Focus;
             InsertContentAt {| from := 0; to := 3 + 1 + 1 |}
               [MentionSpec []; TextSpec [32]]], h2)
    ∧ range_to h2 0%nat = Some (3 + 1 + 1).
Proof.
  apply (command_twice_extends_twice (session_at 0 "bo")
           (Some (TextNode (of_string " x")))
           (Some (TextNode (of_string " y"))) [] [] tab_span
           {| from := 0; to := 3 |}
           [Focus; InsertContentAt {| from := 0; to := 4 |}
                     [MentionSpec []; TextSpec [32]]]
           [Some {| from := 0; to := 4 |}]); reflexivity.
Defined.

(** ** The attributes *)

Lemma data_name_inj (key key' : list Z) : data_name key = data_name key' → key = key'.
Proof. unfold data_name. apply app_inv_head. Qed.

Lemma render_lookup (key key' : list Z) (attributes : gmap (list Z) (option (list Z))) :
  Attribute.renderHTML (getStandardAttribute key) attributes
    !! data_name key'
  = if bool_decide (key = key') && truthy (attr_value attributes key)
    then Some (attr_value attributes key) else None.
Proof.
  unfold getStandardAttribute. cbn [Attribute.renderHTML].
  destruct (truthy (attr_value attributes key)); cbn [negb].
  - case_bool_decide as Hk; cbn [andb].
    + subst. apply lookup_singleton_eq.
    + apply lookup_singleton_ne. by intros ?%data_name_inj.
  - rewrite andb_false_r. apply lookup_empty.
Qed.

(** X19. An attribute survives rendering and parsing exactly when it is a
    non-empty string: parsing the element made from what [renderHTML]
    returns gives the string back, and gives [null] for a value that is
    [null], missing or the empty string. *)
Theorem attribute_round_trip (key : list Z)
    (attributes : gmap (list Z) (option (list Z))) :
  Attribute.parseHTML (getStandardAttribute key)
    (element_of (Attribute.renderHTML (getStandardAttribute key) attributes))
  = if truthy (attr_value attributes key) then attr_value attributes key
    else None.
Proof.
  unfold element_of.
  change (Attribute.parseHTML (getStandardAttribute key) ?e)
    with (e !! data_name key).
  rewrite lookup_omap, render_lookup, (bool_decide_eq_true_2 _ eq_refl).
  cbn [andb]. destruct (truthy _) eqn:E; [|done].
  by destruct (attr_value attributes key).
Qed.

(** X20. The three attributes of a mention do not disturb one another: on
    the element that carries what the three [renderHTML] functions return
    together, parsing [id], [collection] or [value] gives that attribute's
    own string back, or [null] when it was not a non-empty string. *)
Theorem mention_attributes_round_trip
    (attributes : gmap (list Z) (option (list Z))) (key : list Z) :
  key ∈ [of_string "id"; of_string "collection"; of_string "value"] →
  Attribute.parseHTML (getStandardAttribute key)
    (element_of (render_all attributes))
  = if truthy (attr_value attributes key) then attr_value attributes key
    else None.
Proof.
  intros Hkey. unfold element_of, render_all, addAttributes.
  change (Attribute.parseHTML (getStandardAttribute key) ?e)
    with (e !! data_name key).
  cbn [foldr snd]. rewrite lookup_omap, !lookup_union, !render_lookup.
  rewrite lookup_empty.
  repeat (apply elem_of_cons in Hkey as [->|Hkey]);
    [| | |by apply elem_of_nil in Hkey];
    repeat (rewrite bool_decide_eq_true_2 by reflexivity);
    repeat (rewrite bool_decide_eq_false_2 by discriminate);
    cbn [andb];
    destruct (truthy _) eqn:E; try done;
    by destruct (attr_value attributes _).
Qed.

Lemma mention_attributes_round_trip_witness :
  Attribute.parseHTML (getStandardAttribute (of_string "value"))
    (element_of (render_all
       {[ of_string "id" := Some (of_string "7");
          of_string "value" := Some (of_string "Bob") ]}))
  = Some (of_string "Bob").
Proof.
  etrans.
  - apply (mention_attributes_round_trip
             {[ of_string "id" := Some (of_string "7");
                of_string "value" := Some (of_string "Bob") ]}
             (of_string "value")).
    apply elem_of_cons. right. apply elem_of_cons. right. apply elem_of_cons.
    by left.
  - vm_compute. reflexivity.
Defined.

(** ** Scanner, state machine and view together *)




